(** * BiMap: a bi-directional map over two insertion-ordered tables

    Shallow embedding of [src/bimap/index.ts] (class [BiMap<K, V>]) and of
    the error classes of [src/bimap/error.ts].

    - [JSMap] models the built-in ECMAScript [Map]: an insertion-ordered
      table with unique keys, as the list of its entries in iteration order.
    - Section [BiMap] models the class: a record of the two protected fields
      and every method as a state-passing computation that either completes
      normally or throws one of the four errors.
    - Section [Heap] models object identity for [clone]: [Map] and [BiMap]
      objects live in a store and are reached through references. *)

From stdpp Require Import base numbers strings option list.

Set Default Proof Using "Type".

(** ** The built-in [Map] *)

Module JSMap.
Section JSMap.
Context {K V : Type} `{EqDecision K}.

(** [Map.prototype.get]: [None] stands for the [undefined] returned when
    the key has no entry. *)
Fixpoint get (m : list (K * V)) (key : K) : option V :=
  match m with
  | [] => None
  | (k, v) :: m' => if decide (k = key) then Some v else get m' key
  end.

(** [Map.prototype.has]. *)
Definition has (m : list (K * V)) (key : K) : bool :=
  match get m key with Some _ => true | None => false end.

(** [Map.prototype.set]: an existing entry keeps its position and gets the
    new value, a new entry is appended. *)
Fixpoint set (m : list (K * V)) (key : K) (value : V) : list (K * V) :=
  match m with
  | [] => [(key, value)]
  | (k, v) :: m' =>
      if decide (k = key) then (k, value) :: m'
      else (k, v) :: set m' key value
  end.

(** [Map.prototype.delete] (the boolean it returns is never used by the
    class). *)
Definition delete (m : list (K * V)) (key : K) : list (K * V) :=
  filter (λ e, e.1 ≠ key) m.

(** [Map.prototype.clear]. *)
Definition clear (m : list (K * V)) : list (K * V) := [].

(** The [size] accessor. *)
Definition size (m : list (K * V)) : nat := length m.

(** [Map.prototype.keys] and [Map.prototype.entries], as the sequences the
    iterators produce. *)
Definition keys (m : list (K * V)) : list K := m.*1.
Definition entries (m : list (K * V)) : list (K * V) := m.

(** [new Map(iterable)]: starts empty and performs one [set] per entry. *)
Definition from_entries (l : list (K * V)) : list (K * V) :=
  foldl (λ m e, set m e.1 e.2) [] l.

(** What distinguishes a list that is the state of a [Map]: no key occurs
    twice. *)
Definition wf (m : list (K * V)) : Prop := NoDup m.*1.
End JSMap.
End JSMap.

(** ** The error classes of [error.ts] *)

Inductive BiMapError (K V : Type) : Type :=
  | BiMapNoSuchKeyError (cause : K)
  | BiMapNoSuchValueError (cause : V)
  | BiMapKeyConflictError (key : K)
  | BiMapValueConflictError (value : V).
Arguments BiMapNoSuchKeyError {K V} cause.
Arguments BiMapNoSuchValueError {K V} cause.
Arguments BiMapKeyConflictError {K V} key.
Arguments BiMapValueConflictError {K V} value.

(** How a call ends: it returns, or it throws. *)
Inductive completion (E A : Type) : Type :=
  | Return (a : A)
  | Throw (e : E).
Arguments Return {E A} a.
Arguments Throw {E A} e.

(** The cast [key as K] applied to the property names of a plain object; it
    is the identity on [string], the only key type the overloads taking a
    [Record<string, V>] are declared for. *)
Class CastKey (K : Type) := as_K : string → K.
#[export] Instance cast_key_string : CastKey string := λ s, s.

(** ** The class [BiMap<K, V>] *)

Record BiMap (K V : Type) : Type := mkBiMap {
  key2value : list (K * V);
  value2key : list (V * K);
}.
Arguments mkBiMap {K V} key2value value2key.
Arguments key2value {K V} _.
Arguments value2key {K V} _.

(** The shapes [setAll], [addAll] and [from] accept: a container, given by
    its state when the call starts; a [Map], given by its entries; an array
    of pairs; a plain object, given by [Object.entries] of it.

    The loops below walk the source while the receiver changes, so the
    source is taken to be an object other than the receiver's tables. A
    container passed to its own [addAll] is covered all the same (the first
    [add] throws before any write, or there is nothing to add). A non-empty
    container passed to its own [setAll] is not: [forEach] also visits the
    entries that [set] re-appends to the table being walked, and the call
    does not return. *)
Inductive Pairs (K V : Type) : Type :=
  | PairsBiMap (pairs : BiMap K V)
  | PairsMap (pairs : list (K * V))
  | PairsArray (pairs : list (K * V))
  | PairsRecord (pairs : list (string * V)).
Arguments PairsBiMap {K V} pairs.
Arguments PairsMap {K V} pairs.
Arguments PairsArray {K V} pairs.
Arguments PairsRecord {K V} pairs.

Section BiMap.
Context {K V : Type} `{EqDecision K, EqDecision V, CastKey K}.

Abbreviation BiMap := (BiMap K V).
Abbreviation Error := (BiMapError K V).

(** A method body: it runs on the receiver's state and leaves a state
    behind whether it returns or throws. *)
Definition method (A : Type) : Type := BiMap → BiMap * completion Error A.

Definition ret {A} (a : A) : method A := λ this, (this, Return a).
Definition throw {A} (e : Error) : method A := λ this, (this, Throw e).
Definition bind {A B} (m : method A) (f : A → method B) : method B :=
  λ this,
    match m this with
    | (this', Return a) => f a this'
    | (this', Throw e) => (this', Throw e)
    end.

Declare Scope method_scope.
Delimit Scope method_scope with method.
Notation "x <- m ;; f" := (bind m (λ x, f))
  (at level 100, m at next level, f at level 200, right associativity) : method_scope.
Notation "m ;; f" := (bind m (λ _, f))
  (at level 100, f at level 200, right associativity) : method_scope.
Local Open Scope method_scope.

(** Reads and writes of the two fields. *)
Definition read {A} (f : BiMap → A) : method A := λ this, (this, Return (f this)).
Definition on_key2value (f : list (K * V) → list (K * V)) : method () :=
  λ this, (mkBiMap (f (key2value this)) (value2key this), Return ()).
Definition on_value2key (f : list (V * K) → list (V * K)) : method () :=
  λ this, (mkBiMap (key2value this) (f (value2key this)), Return ()).

(** [new BiMap()] *)
Definition new : BiMap := mkBiMap [] [].

Definition size (this : BiMap) : nat := JSMap.size (key2value this).

Definition clear : method () :=
  on_key2value JSMap.clear ;;
  on_value2key JSMap.clear ;;
  ret ().

Definition hasKey (key : K) : method bool :=
  read (λ this, JSMap.has (key2value this) key).

Definition hasValue (value : V) : method bool :=
  read (λ this, JSMap.has (value2key this) value).



Definition getValue (key : K) : method (option V) :=
  read (λ this, JSMap.get (key2value this) key).

Definition getKey (value : V) : method (option K) :=
  read (λ this, JSMap.get (value2key this) value).

(** [this.value2key.delete(this.key2value.get(key)!)]: the lookup is made
    under [hasKey(key)], so it finds an entry. *)
Definition deleteKey (key : K) : method bool :=
  b <- hasKey key ;;
  if b then
    o <- getValue key ;;
    on_value2key (λ m, match o with Some v => JSMap.delete m v | None => m end) ;;
    on_key2value (λ m, JSMap.delete m key) ;;
    ret true
  else ret false.

Definition deleteValue (value : V) : method bool :=
  b <- hasValue value ;;
  if b then
    o <- getKey value ;;
    on_key2value (λ m, match o with Some k => JSMap.delete m k | None => m end) ;;
    on_value2key (λ m, JSMap.delete m value) ;;
    ret true
  else ret false.

(** The counting loops of [deleteKeys] and [deleteValues]: what is left of
    the array, with [num] removals so far. *)
Fixpoint deleteKeys_from (keys : list K) (num : nat) : method nat :=
  match keys with
  | [] => ret num
  | key :: keys' =>
      b <- deleteKey key ;;
      deleteKeys_from keys' (if b then S num else num)
  end.
Definition deleteKeys (keys : list K) : method nat := deleteKeys_from keys 0.

Fixpoint deleteValues_from (values : list V) (num : nat) : method nat :=
  match values with
  | [] => ret num
  | value :: values' =>
      b <- deleteValue value ;;
      deleteValues_from values' (if b then S num else num)
  end.
Definition deleteValues (values : list V) : method nat := deleteValues_from values 0.

(** The sequences behind the iterators. [values()] walks the keys of the
    inverse table. *)
Definition keys (this : BiMap) : list K := JSMap.keys (key2value this).
Definition values (this : BiMap) : list V := JSMap.keys (value2key this).
Definition entries (this : BiMap) : list (K * V) := JSMap.entries (key2value this).

(** A loop that calls [f] on each element in turn; a throw leaves it. It
    stands for the [for] and [for ... of] loops and for [forEach] over a
    table that the callback does not touch. *)
Fixpoint for_each {A} (f : A → method ()) (l : list A) : method () :=
  match l with
  | [] => ret ()
  | x :: l' => f x ;; for_each f l'
  end.

(** The state of the container [clone] returns. *)
Definition clone (this : BiMap) : BiMap :=
  mkBiMap (JSMap.from_entries (key2value this))
          (JSMap.from_entries (value2key this)).

Definition set (key : K) (value : V) : method () :=
  (b <- hasKey key ;; if b then (deleteKey key ;; ret ()) else ret ()) ;;
  (b <- hasValue value ;; if b then (deleteValue value ;; ret ()) else ret ()) ;;
  on_key2value (λ m, JSMap.set m key value) ;;
  on_value2key (λ m, JSMap.set m value key) ;;
  ret ().

Definition add (key : K) (value : V) : method () :=
  b <- hasKey key ;;
  if b then throw (BiMapKeyConflictError key)
  else
    b' <- hasValue value ;;
    if b' then throw (BiMapValueConflictError value)
    else
      on_key2value (λ m, JSMap.set m key value) ;;
      on_value2key (λ m, JSMap.set m value key) ;;
      ret ().

(** [setAll]: each branch walks the source as it is when the call starts.
    That is what the code does for every source but one, the receiver
    itself when it is not empty (see [Pairs]); statements about what
    [setAll] returns leave that call out. *)
Definition setAll (pairs : Pairs K V) : method () :=
  match pairs with
  | PairsBiMap pairs => for_each (λ e, set e.1 e.2) (key2value pairs)
  | PairsMap pairs => for_each (λ e, set e.1 e.2) (JSMap.entries pairs)
  | PairsArray pairs => for_each (λ e, set e.1 e.2) pairs
  | PairsRecord pairs => for_each (λ e, set (as_K e.1) e.2) pairs
  end.

Definition addAll (pairs : Pairs K V) : method () :=
  match pairs with
  | PairsBiMap pairs => for_each (λ e, add e.1 e.2) (key2value pairs)
  | PairsMap pairs => for_each (λ e, add e.1 e.2) (JSMap.entries pairs)
  | PairsArray pairs => for_each (λ e, add e.1 e.2) pairs
  | PairsRecord pairs => for_each (λ e, add (as_K e.1) e.2) pairs
  end.

(** [BiMap.from]: the container built, or the error thrown on the way. *)
Definition from (pairs : Pairs K V) : completion Error BiMap :=
  match addAll pairs new with
  | (this, Return _) => Return this
  | (_, Throw e) => Throw e
  end.

(** The pairs a source hands over, in the order the loops visit them. *)
Definition pairs_of (pairs : Pairs K V) : list (K * V) :=
  match pairs with
  | PairsBiMap pairs => key2value pairs
  | PairsMap pairs => pairs
  | PairsArray pairs => pairs
  | PairsRecord pairs => prod_map as_K id <$> pairs
  end.

(** *** Observing a call *)

(** The receiver's state once the call is over, and how the call ended. *)
Definition after {A} (m : method A) (this : BiMap) : BiMap := (m this).1.
Definition returns {A} (m : method A) (this : BiMap) (a : A) : Prop :=
  (m this).2 = Return a.
Definition throws {A} (m : method A) (this : BiMap) (e : Error) : Prop :=
  (m this).2 = Throw e.

(** *** Reachable states *)

(** The states a container can be in: that of [new BiMap()], and the
    state any method leaves behind, whether it returned or threw. The
    container [clone] returns starts in the state [clone] computes. *)
Inductive reachable : BiMap → Prop :=
  | reach_new : reachable new
  | reach_set this key value :
      reachable this → reachable (after (set key value) this)
  | reach_add this key value :
      reachable this → reachable (after (add key value) this)
  | reach_setAll this pairs :
      reachable this → reachable (after (setAll pairs) this)
  | reach_addAll this pairs :
      reachable this → reachable (after (addAll pairs) this)
  | reach_deleteKey this key :
      reachable this → reachable (after (deleteKey key) this)
  | reach_deleteValue this value :
      reachable this → reachable (after (deleteValue value) this)
  | reach_deleteKeys this keys :
      reachable this → reachable (after (deleteKeys keys) this)
  | reach_deleteValues this values :
      reachable this → reachable (after (deleteValues values) this)
  | reach_clear this :
      reachable this → reachable (after clear this)
  | reach_clone this :
      reachable this → reachable (clone this).

(** The two tables mirror each other entry by entry, in the same order,
    and no key and no value occurs twice. *)
Definition mirrored (this : BiMap) : Prop :=
  value2key this = prod_swap <$> key2value this
  ∧ NoDup (key2value this).*1
  ∧ NoDup (key2value this).*2.
End BiMap.

(** ** Objects and references *)

(** A reference is the address of a cell of the store. *)
Abbreviation ref := nat.

(** What a cell holds: a [Map<K, V>], a [Map<V, K>], or a [BiMap] with the
    references its two fields hold. *)
Inductive object (K V : Type) : Type :=
  | ObjForward (m : list (K * V))
  | ObjInverse (m : list (V * K))
  | ObjBiMap (key2value value2key : ref).
Arguments ObjForward {K V} m.
Arguments ObjInverse {K V} m.
Arguments ObjBiMap {K V} key2value value2key.

Abbreviation heap K V := (list (object K V)).

Section Heap.
Context {K V : Type} `{EqDecision K, EqDecision V}.

Abbreviation heap := (heap K V).
Abbreviation object := (object K V).

(** A new object goes to the first unused address. *)
Definition alloc (o : object) (h : heap) : heap * ref := (h ++ [o], length h).

(** The fields of the [BiMap] at [r]. *)
Definition fields (h : heap) (r : ref) : option (ref * ref) :=
  match h !! r with
  | Some (ObjBiMap kv vk) => Some (kv, vk)
  | _ => None
  end.

(** Two containers that share no table. *)
Definition apart (h : heap) (r1 r2 : ref) : Prop :=
  ∃ kv1 vk1 kv2 vk2,
    fields h r1 = Some (kv1, vk1) ∧ fields h r2 = Some (kv2, vk2)
    ∧ kv1 ≠ kv2 ∧ vk1 ≠ vk2.

(** The state of the [BiMap] at [r]: the contents of the two tables its
    fields refer to. *)
Definition load (h : heap) (r : ref) : option (BiMap K V) :=
  match fields h r with
  | Some (kv, vk) =>
      match h !! kv, h !! vk with
      | Some (ObjForward m), Some (ObjInverse m') => Some (mkBiMap m m')
      | _, _ => None
      end
  | None => None
  end.

(** Writing a state back: the methods update the two tables in place and
    never assign the fields. *)
Definition store (h : heap) (r : ref) (this : BiMap K V) : option heap :=
  match fields h r with
  | Some (kv, vk) =>
      Some (<[vk := ObjInverse (value2key this)]>
              (<[kv := ObjForward (key2value this)]> h))
  | None => None
  end.

(** A method called on the object at [r]. [None]: [r] is not a [BiMap]. *)
Definition call {A} (m : method A) (r : ref) (h : heap)
    : option (heap * completion (BiMapError K V) A) :=
  match load h r with
  | Some this =>
      match store h r (m this).1 with
      | Some h' => Some (h', (m this).2)
      | None => None
      end
  | None => None
  end.

(** A method with its arguments, whatever it returns. *)
Inductive invocation : Type :=
  | Invoke {A : Type} (m : method (K:=K) (V:=V) A).

(** A caller making one call after the other, each on the object it
    names; it goes on whether a call returned or threw. *)
Fixpoint calls (ms : list (ref * invocation)) (h : heap) : option heap :=
  match ms with
  | [] => Some h
  | (r, Invoke m) :: ms' =>
      match call m r h with
      | Some (h', _) => calls ms' h'
      | None => None
      end
  end.

(** The same calls on a state that nothing else touches. *)
Fixpoint run (ms : list invocation) (this : BiMap K V) : BiMap K V :=
  match ms with
  | [] => this
  | Invoke m :: ms' => run ms' (after m this)
  end.

(** The calls made on the object at [r]. *)
Definition calls_on (r : ref) (ms : list (ref * invocation)) : list invocation :=
  (filter (λ c, c.1 = r) ms).*2.

(** [new BiMap()]: the field initialisers make two empty tables. *)
Definition new_obj (h : heap) : heap * ref :=
  let '(h, kv) := alloc (ObjForward []) h in
  let '(h, vk) := alloc (ObjInverse []) h in
  alloc (ObjBiMap kv vk) h.

(** [clone()] on the object at [r]: [new BiMap()], then each field of the
    new object is assigned a new [Map] built from the entries of the
    receiver's table. *)
Definition clone_obj (r : ref) (h : heap) : option (heap * ref) :=
  match load h r with
  | Some this =>
      let '(h, cloned) := new_obj h in
      match fields h cloned with
      | Some (_, vk0) =>
          let '(h, kv) := alloc (ObjForward (JSMap.from_entries (key2value this))) h in
          let h := <[cloned := ObjBiMap kv vk0]> h in
          let '(h, vk) := alloc (ObjInverse (JSMap.from_entries (value2key this))) h in
          let h := <[cloned := ObjBiMap kv vk]> h in
          Some (h, cloned)
      | None => None
      end
  | None => None
  end.

(** The stores a program gets by making containers, cloning them and
    calling their methods, starting with no object at all. *)
Inductive heap_reachable : heap → Prop :=
  | heap_empty : heap_reachable []
  | heap_new h : heap_reachable h → heap_reachable (new_obj h).1
  | heap_clone h r h' r' :
      heap_reachable h → clone_obj r h = Some (h', r') → heap_reachable h'
  | heap_call {A : Type} (m : method (K:=K) (V:=V) A) h r h' c :
      heap_reachable h → call m r h = Some (h', c) → heap_reachable h'.

(** Every container has its two tables, and no two containers share one. *)
Definition owned (h : heap) : Prop :=
  (∀ r kv vk, h !! r = Some (ObjBiMap kv vk) →
     (∃ m, h !! kv = Some (ObjForward m)) ∧ (∃ m, h !! vk = Some (ObjInverse m)))
  ∧ (∀ r1 r2 kv1 vk1 kv2 vk2, r1 ≠ r2 →
       h !! r1 = Some (ObjBiMap kv1 vk1) → h !! r2 = Some (ObjBiMap kv2 vk2) →
       kv1 ≠ kv2 ∧ vk1 ≠ vk2).
End Heap.

(** ** The containers of the examples *)

Section Examples.
Local Open Scope Z_scope.

(** [{one: 1}], [{one: 1, two: 2}], [{two: 2}], [{a: 1, b: 2}], [{a: 2}]
    and [{a: 1}], with the numbers as integers. *)
Definition bimap_one : BiMap string Z := mkBiMap [("one", 1)] [(1, "one")].
Definition bimap_one_two : BiMap string Z :=
  mkBiMap [("one", 1); ("two", 2)] [(1, "one"); (2, "two")].
Definition bimap_two : BiMap string Z := mkBiMap [("two", 2)] [(2, "two")].
Definition bimap_a1_b2 : BiMap string Z :=
  mkBiMap [("a", 1); ("b", 2)] [(1, "a"); (2, "b")].
Definition bimap_a2 : BiMap string Z := mkBiMap [("a", 2)] [(2, "a")].
Definition bimap_a1 : BiMap string Z := mkBiMap [("a", 1)] [(1, "a")].

(** The four sources of the test [BiMap: basic], all holding
    [{one: 1, two: 2}]. *)
Definition source_record : Pairs string Z := PairsRecord [("one", 1); ("two", 2)].

(** A store holding [{one: 1, two: 2}] as the object at address 2, and
    the same store once that object has been cloned, the clone being the
    object at address 5. *)
Definition heap_one_two : heap string Z :=
  [ObjForward [("one", 1); ("two", 2)]; ObjInverse [(1, "one"); (2, "two")];
   ObjBiMap 0 1].
Definition heap_cloned : heap string Z :=
  heap_one_two ++
  [ObjForward []; ObjInverse []; ObjBiMap 6 7;
   ObjForward [("one", 1); ("two", 2)]; ObjInverse [(1, "one"); (2, "two")]].
End Examples.

(** * Properties *)

(** ** Facts about the built-in [Map] *)

Section JSMap_facts.
Context {K V : Type} `{EqDecision K}.
Implicit Types (m : list (K * V)) (key : K) (value : V).

Lemma get_None m key : JSMap.get m key = None ↔ key ∉ m.*1.
Proof.
  induction m as [|[k v] m IH]; simpl.
  - split; [intros _; apply not_elem_of_nil | done].
  - rewrite not_elem_of_cons. destruct (decide (k = key)) as [->|Hne].
    + split; [done | intros [? _]; done].
    + rewrite IH. split; [intros ?; split; [congruence | done] | intros [_ ?]; done].
Qed.

Lemma get_Some_elem m key value :
  JSMap.get m key = Some value → (key, value) ∈ m.
Proof.
  induction m as [|[k v] m IH]; simpl; [done|].
  destruct (decide (k = key)) as [->|Hne].
  - intros [= ->]. apply list_elem_of_here.
  - intros Hg. apply list_elem_of_further, IH, Hg.
Qed.

Lemma elem_get m key value :
  NoDup m.*1 → (key, value) ∈ m → JSMap.get m key = Some value.
Proof.
  induction m as [|[k v] m IH]; simpl; [intros _ Hin; by apply elem_of_nil in Hin|].
  intros Hnd Hin. apply NoDup_cons in Hnd as [Hk Hnd].
  apply elem_of_cons in Hin as [[= -> ->]|Hin].
  - by rewrite decide_True.
  - destruct (decide (k = key)) as [->|Hne]; [|by apply IH].
    exfalso. apply Hk. by apply (list_elem_of_fmap_2 fst) in Hin.
Qed.

Lemma has_true m key : JSMap.has m key = true ↔ key ∈ m.*1.
Proof.
  unfold JSMap.has. destruct (JSMap.get m key) eqn:Hg.
  - split; [intros _|done]. apply get_Some_elem in Hg.
    by apply (list_elem_of_fmap_2 fst) in Hg.
  - split; [done|]. intros Hin. by apply get_None in Hg.
Qed.

Lemma has_false m key : JSMap.has m key = false ↔ key ∉ m.*1.
Proof.
  pose proof (has_true m key) as Ht.
  destruct (JSMap.has m key); split; try done.
  - intros Hn. exfalso. apply Hn, Ht. done.
  - intros _ Hin. apply Ht in Hin. done.
Qed.

Lemma has_get m key : JSMap.has m key = true ↔ is_Some (JSMap.get m key).
Proof.
  unfold JSMap.has. destruct (JSMap.get m key); split; done.
Qed.

(** Setting a key that has no entry appends the entry. *)
Lemma set_fresh m key value :
  key ∉ m.*1 → JSMap.set m key value = m ++ [(key, value)].
Proof.
  induction m as [|[k v] m IH]; simpl; [done|].
  rewrite not_elem_of_cons. intros [Hne Hk].
  rewrite decide_False by congruence. by rewrite IH.
Qed.

Lemma delete_fresh m key : key ∉ m.*1 → JSMap.delete m key = m.
Proof.
  unfold JSMap.delete. induction m as [|[k v] m IH]; simpl; [done|].
  rewrite not_elem_of_cons. intros [Hne Hk].
  rewrite filter_cons_True by (simpl; congruence). by rewrite IH.
Qed.

(** Copying a table by [new Map(m)] gives the same entries in the same
    order. *)
Lemma from_entries_id m : NoDup m.*1 → JSMap.from_entries m = m.
Proof.
  unfold JSMap.from_entries.
  enough (∀ acc, NoDup (acc ++ m).*1 →
            foldl (λ m e, JSMap.set m e.1 e.2) acc m = acc ++ m) as Hgen
    by (intros; by apply (Hgen [])).
  induction m as [|[k v] m IH]; intros acc Hnd; simpl.
  - by rewrite app_nil_r.
  - rewrite set_fresh.
    + rewrite IH; rewrite <- app_assoc; done.
    + rewrite fmap_app in Hnd. simpl in Hnd.
      apply NoDup_app in Hnd as (_ & Hdisj & _).
      intros Hin. apply (Hdisj k Hin). apply list_elem_of_here.
Qed.
End JSMap_facts.

(** ** Facts about lists of pairs *)

Section pair_lists.
Context {A B : Type}.
Implicit Types (l : list (A * B)).

Lemma swap_fst l : (prod_swap <$> l).*1 = l.*2.
Proof. induction l as [|[a b] l IH]; csimpl; [done|]. by rewrite IH. Qed.

Lemma swap_snd l : (prod_swap <$> l).*2 = l.*1.
Proof. induction l as [|[a b] l IH]; csimpl; [done|]. by rewrite IH. Qed.

Lemma filter_agree (P Q : A * B → Prop)
    `{!∀ x, Decision (P x), !∀ x, Decision (Q x)} l :
  (∀ x, x ∈ l → P x ↔ Q x) → filter P l = filter Q l.
Proof.
  induction l as [|x l IH]; intros Hag; [done|].
  rewrite !filter_cons.
  rewrite IH by (intros y Hy; apply Hag; by apply list_elem_of_further).
  apply decide_ext, Hag, list_elem_of_here.
Qed.

Lemma filter_swap (P : B * A → Prop) `{!∀ x, Decision (P x)} l :
  filter P (prod_swap <$> l) = prod_swap <$> filter (λ e, P (prod_swap e)) l.
Proof.
  induction l as [|x l IH]; [done|].
  rewrite fmap_cons, !filter_cons, IH.
  destruct (decide (P (prod_swap x))); done.
Qed.

(** In a list without repeated first or second components, an entry
    shares its first component with a stored pair exactly when it shares
    the second. *)
Lemma same_key_same_value l a b x :
  NoDup l.*1 → NoDup l.*2 → (a, b) ∈ l → x ∈ l → x.1 = a ↔ x.2 = b.
Proof.
  induction l as [|[a' b'] l IH]; intros Hk Hv Hab Hx;
    [by apply elem_of_nil in Hx|].
  simpl in Hk, Hv.
  apply NoDup_cons in Hk as [Hk Hk'], Hv as [Hv Hv'].
  apply elem_of_cons in Hab as [[= -> ->]|Hab], Hx as [->|Hx]; simpl.
  - done.
  - split; intros <-; exfalso.
    + apply Hk. by apply (list_elem_of_fmap_2 fst) in Hx.
    + apply Hv. by apply (list_elem_of_fmap_2 snd) in Hx.
  - split; intros ->; exfalso.
    + apply Hk. by apply (list_elem_of_fmap_2 fst) in Hab.
    + apply Hv. by apply (list_elem_of_fmap_2 snd) in Hab.
  - by apply IH.
Qed.

Lemma NoDup_fst_filter (P : A * B → Prop) `{!∀ x, Decision (P x)} l :
  NoDup l.*1 → NoDup (filter P l).*1.
Proof.
  induction l as [|x l IH]; [done|]. simpl. intros [Hx Hnd]%NoDup_cons.
  rewrite filter_cons. destruct (decide (P x)); [|by apply IH].
  simpl. apply NoDup_cons. split; [|by apply IH].
  intros (y & Hy & [_ Hin]%list_elem_of_filter)%list_elem_of_fmap.
  apply Hx. rewrite Hy. by apply list_elem_of_fmap_2.
Qed.

Lemma NoDup_snd_filter (P : A * B → Prop) `{!∀ x, Decision (P x)} l :
  NoDup l.*2 → NoDup (filter P l).*2.
Proof.
  induction l as [|x l IH]; [done|]. simpl. intros [Hx Hnd]%NoDup_cons.
  rewrite filter_cons. destruct (decide (P x)); [|by apply IH].
  simpl. apply NoDup_cons. split; [|by apply IH].
  intros (y & Hy & [_ Hin]%list_elem_of_filter)%list_elem_of_fmap.
  apply Hx. rewrite Hy. by apply list_elem_of_fmap_2.
Qed.
End pair_lists.

(** ** The methods, one equation each *)

Section BiMap_equations.
Context {K V : Type} `{EqDecision K, EqDecision V}.
Implicit Types (this : BiMap K V) (key : K) (value : V).

Lemma deleteKey_eq key this :
  deleteKey key this =
    match JSMap.get (key2value this) key with
    | Some v => (mkBiMap (JSMap.delete (key2value this) key)
                         (JSMap.delete (value2key this) v), Return true)
    | None => (this, Return false)
    end.
Proof.
  unfold deleteKey, bind, hasKey, getValue, read, JSMap.has,
    on_key2value, on_value2key, ret. simpl.
  destruct (JSMap.get (key2value this) key) eqn:Hget; simpl;
    rewrite ?Hget; reflexivity.
Qed.

Lemma deleteValue_eq value this :
  deleteValue value this =
    match JSMap.get (value2key this) value with
    | Some k => (mkBiMap (JSMap.delete (key2value this) k)
                         (JSMap.delete (value2key this) value), Return true)
    | None => (this, Return false)
    end.
Proof.
  unfold deleteValue, bind, hasValue, getKey, read, JSMap.has,
    on_key2value, on_value2key, ret. simpl.
  destruct (JSMap.get (value2key this) value) eqn:Hget; simpl;
    rewrite ?Hget; reflexivity.
Qed.

Lemma bind_eq {A B} (m : method A) (f : A → method B) this :
  bind m f this =
    match m this with
    | (this', Return a) => f a this'
    | (this', Throw e) => (this', Throw e)
    end.
Proof. reflexivity. Qed.

(** A deletion guarded by the membership test it makes itself. *)
Lemma guarded_deleteKey key this :
  bind (hasKey key) (λ b, if b then bind (deleteKey key) (λ _, ret ()) else ret ()) this
  = (after (deleteKey key) this, Return ()).
Proof.
  unfold after. rewrite bind_eq. unfold hasKey, read.
  destruct (JSMap.has (key2value this) key) eqn:Hhas.
  - rewrite bind_eq. by destruct (deleteKey key this) as [? [[]|?]] eqn:Hd;
      rewrite deleteKey_eq in Hd; destruct (JSMap.get _ _) in Hd.
  - rewrite deleteKey_eq. unfold JSMap.has in Hhas.
    by destruct (JSMap.get (key2value this) key).
Qed.

Lemma guarded_deleteValue value this :
  bind (hasValue value) (λ b, if b then bind (deleteValue value) (λ _, ret ()) else ret ()) this
  = (after (deleteValue value) this, Return ()).
Proof.
  unfold after. rewrite bind_eq. unfold hasValue, read.
  destruct (JSMap.has (value2key this) value) eqn:Hhas.
  - rewrite bind_eq. by destruct (deleteValue value this) as [? [[]|?]] eqn:Hd;
      rewrite deleteValue_eq in Hd; destruct (JSMap.get _ _) in Hd.
  - rewrite deleteValue_eq. unfold JSMap.has in Hhas.
    by destruct (JSMap.get (value2key this) value).
Qed.

(** [set] is the two deletions followed by the two insertions. *)
Lemma set_eq key value this :
  set key value this =
    (let this' := after (deleteValue value) (after (deleteKey key) this) in
     mkBiMap (JSMap.set (key2value this') key value)
             (JSMap.set (value2key this') value key), Return ()).
Proof.
  unfold set. rewrite bind_eq, guarded_deleteKey.
  rewrite bind_eq, guarded_deleteValue. reflexivity.
Qed.

Lemma add_eq key value this :
  add key value this =
    if JSMap.has (key2value this) key
    then (this, Throw (BiMapKeyConflictError key))
    else if JSMap.has (value2key this) value
    then (this, Throw (BiMapValueConflictError value))
    else (mkBiMap (JSMap.set (key2value this) key value)
                  (JSMap.set (value2key this) value key), Return ()).
Proof.
  unfold add, bind, hasKey, hasValue, read, throw. simpl.
  destruct (JSMap.has (key2value this) key); [reflexivity|].
  destruct (JSMap.has (value2key this) value); reflexivity.
Qed.

Lemma add_returns key value this this' :
  add key value this = (this', Return ()) →
  key2value this' = key2value this ++ [(key, value)]
  ∧ value2key this' = value2key this ++ [(value, key)].
Proof.
  rewrite add_eq.
  destruct (JSMap.has (key2value this) key) eqn:Hk; [done|].
  destruct (JSMap.has (value2key this) value) eqn:Hv; [done|].
  intros [= <-]. simpl. split; apply set_fresh; by apply has_false.
Qed.


Lemma clear_eq this : clear this = (new, Return ()).
Proof. reflexivity. Qed.

Lemma for_each_cons {A} (f : A → method ()) x l this :
  for_each f (x :: l) this =
    match f x this with
    | (this', Return _) => for_each f l this'
    | (this', Throw e) => (this', Throw e)
    end.
Proof. reflexivity. Qed.

(** The queries leave the state alone and return what the tables hold. *)
Lemma hasKey_eq key this :
  hasKey key this = (this, Return (JSMap.has (key2value this) key)).
Proof. reflexivity. Qed.
Lemma hasValue_eq value this :
  hasValue value this = (this, Return (JSMap.has (value2key this) value)).
Proof. reflexivity. Qed.
Lemma getValue_eq key this :
  getValue key this = (this, Return (JSMap.get (key2value this) key)).
Proof. reflexivity. Qed.
Lemma getKey_eq value this :
  getKey value this = (this, Return (JSMap.get (value2key this) value)).
Proof. reflexivity. Qed.
End BiMap_equations.

(** ** The two tables stay mirrored *)

Section pair_lists_fresh.
Context {A B : Type} `{EqDecision A, EqDecision B}.
Implicit Types (l : list (A * B)).

Lemma notin_fst_filter (P : A * B → Prop) `{!∀ x, Decision (P x)} l a :
  (∀ x, P x → x.1 ≠ a) → a ∉ (filter P l).*1.
Proof.
  intros HP (x & -> & [Hx _]%list_elem_of_filter)%list_elem_of_fmap.
  by apply (HP x).
Qed.

Lemma notin_snd_filter (P : A * B → Prop) `{!∀ x, Decision (P x)} l b :
  (∀ x, P x → x.2 ≠ b) → b ∉ (filter P l).*2.
Proof.
  intros HP (x & -> & [Hx _]%list_elem_of_filter)%list_elem_of_fmap.
  by apply (HP x).
Qed.

Lemma filter_fst_fresh l a : a ∉ l.*1 → filter (λ e, e.1 ≠ a) l = l.
Proof.
  induction l as [|x l IH]; [done|]. csimpl.
  intros [Hne Hin]%not_elem_of_cons.
  rewrite filter_cons_True by (simpl; congruence). by rewrite IH.
Qed.

Lemma filter_snd_fresh l b : b ∉ l.*2 → filter (λ e, e.2 ≠ b) l = l.
Proof.
  induction l as [|x l IH]; [done|]. csimpl.
  intros [Hne Hin]%not_elem_of_cons.
  rewrite filter_cons_True by (simpl; congruence). by rewrite IH.
Qed.
End pair_lists_fresh.

Section mirrored_facts.
Context {K V : Type} `{EqDecision K, EqDecision V}.
Implicit Types (this : BiMap K V) (key : K) (value : V).

Lemma mirrored_new : mirrored (new : BiMap K V).
Proof. repeat split; simpl; apply NoDup_nil_2. Qed.

(** What the inverse table of a mirrored state answers. *)
Lemma mirrored_get_inverse this key value :
  mirrored this →
  JSMap.get (value2key this) value = Some key ↔ (key, value) ∈ key2value this.
Proof.
  intros (Hm & Hk & Hv). rewrite Hm. split.
  - intros Hg%get_Some_elem.
    apply list_elem_of_fmap in Hg as ([k v] & [= -> ->] & Hin). done.
  - intros Hin. apply elem_get; [by rewrite swap_fst|].
    apply list_elem_of_fmap. by exists (key, value).
Qed.

Lemma mirrored_get_forward this key value :
  mirrored this →
  JSMap.get (key2value this) key = Some value ↔ (key, value) ∈ key2value this.
Proof.
  intros (Hm & Hk & Hv). split; [apply get_Some_elem | by apply elem_get].
Qed.

Lemma mirrored_has_inverse this value :
  mirrored this →
  JSMap.has (value2key this) value = true ↔ value ∈ (key2value this).*2.
Proof. intros (Hm & _). by rewrite has_true, Hm, swap_fst. Qed.

(** Appending a pair whose key and value are both new. *)
Lemma mirrored_append this key value :
  mirrored this →
  key ∉ (key2value this).*1 → value ∉ (key2value this).*2 →
  let this' := mkBiMap (JSMap.set (key2value this) key value)
                       (JSMap.set (value2key this) value key) in
  mirrored this' ∧ key2value this' = key2value this ++ [(key, value)].
Proof.
  intros (Hm & Hk & Hv) Hkey Hvalue. simpl.
  rewrite (set_fresh (key2value this)) by done.
  rewrite (set_fresh (value2key this)) by (by rewrite Hm, swap_fst).
  split; [|done]. repeat split; simpl.
  - by rewrite Hm, fmap_app.
  - rewrite fmap_app. apply NoDup_app. repeat split; [done| |apply NoDup_singleton].
    intros x Hx [->|[]%elem_of_nil]%elem_of_cons. done.
  - rewrite fmap_app. apply NoDup_app. repeat split; [done| |apply NoDup_singleton].
    intros x Hx [->|[]%elem_of_nil]%elem_of_cons. done.
Qed.

Lemma mirrored_deleteKey this key :
  mirrored this →
  mirrored (after (deleteKey key) this)
  ∧ key2value (after (deleteKey key) this)
    = filter (λ e, e.1 ≠ key) (key2value this).
Proof.
  intros (Hm & Hk & Hv). unfold after. rewrite deleteKey_eq.
  destruct (JSMap.get (key2value this) key) as [v|] eqn:Hg; simpl.
  - split; [|done]. unfold JSMap.delete. repeat split; simpl.
    + rewrite Hm, filter_swap. f_equal. apply filter_agree.
      intros x Hx. simpl.
      pose proof (same_key_same_value _ key v x Hk Hv (get_Some_elem _ _ _ Hg) Hx)
        as Hsame.
      split; intros Hne Heq; apply Hne, Hsame, Heq.
    + by apply NoDup_fst_filter.
    + by apply NoDup_snd_filter.
  - split; [done|]. symmetry. apply filter_fst_fresh. by apply get_None.
Qed.

Lemma mirrored_deleteValue this value :
  mirrored this →
  mirrored (after (deleteValue value) this)
  ∧ key2value (after (deleteValue value) this)
    = filter (λ e, e.2 ≠ value) (key2value this).
Proof.
  intros Hmir. pose proof Hmir as (Hm & Hk & Hv).
  unfold after. rewrite deleteValue_eq.
  destruct (JSMap.get (value2key this) value) as [k|] eqn:Hg; simpl.
  - apply mirrored_get_inverse in Hg; [|done].
    assert (JSMap.delete (key2value this) k
            = filter (λ e, e.2 ≠ value) (key2value this)) as Heq.
    { apply filter_agree. intros x Hx.
      pose proof (same_key_same_value _ k value x Hk Hv Hg Hx) as Hsame.
      split; intros Hne Heq; apply Hne, Hsame, Heq. }
    split; [|done]. rewrite Heq. repeat split; simpl.
    + unfold JSMap.delete. rewrite Hm, filter_swap. done.
    + by apply NoDup_fst_filter.
    + by apply NoDup_snd_filter.
  - split; [done|]. symmetry. apply filter_snd_fresh.
    apply get_None in Hg. by rewrite Hm, swap_fst in Hg.
Qed.

(** [set] on a mirrored state: the colliding pairs go, the new pair comes
    last. *)
Lemma mirrored_set this key value :
  mirrored this →
  mirrored (after (set key value) this)
  ∧ key2value (after (set key value) this)
    = filter (λ e, e.1 ≠ key ∧ e.2 ≠ value) (key2value this) ++ [(key, value)].
Proof.
  intros Hmir. unfold after at 1 2. rewrite set_eq. cbv zeta.
  destruct (mirrored_deleteKey this key Hmir) as [Hmir1 Hl1].
  destruct (mirrored_deleteValue _ value Hmir1) as [Hmir2 Hl2].
  rewrite Hl1, list_filter_filter in Hl2.
  rewrite (list_filter_iff _ (λ e, e.1 ≠ key ∧ e.2 ≠ value)) in Hl2
    by (intros x; simpl; tauto).
  simpl. rewrite <- Hl2.
  apply mirrored_append; [done|rewrite Hl2..].
  - apply notin_fst_filter. intros x [? ?]; done.
  - apply notin_snd_filter. intros x [? ?]; done.
Qed.

Lemma mirrored_add this key value :
  mirrored this → mirrored (after (add key value) this).
Proof.
  intros Hmir. unfold after. rewrite add_eq.
  destruct (JSMap.has (key2value this) key) eqn:Hk; [done|].
  destruct (JSMap.has (value2key this) value) eqn:Hv; [done|].
  apply mirrored_append; [done|by apply has_false|].
  intros Hin. apply (mirrored_has_inverse this value Hmir) in Hin. congruence.
Qed.
End mirrored_facts.

Section reachable_facts.
Context {K V : Type} `{EqDecision K, EqDecision V, CastKey K}.
Implicit Types (this : BiMap K V) (key : K) (value : V).

(** A property every call of the loop body keeps is kept by the loop,
    however it ends. *)
Lemma for_each_invariant {A} (P : BiMap K V → Prop) (f : A → method ()) l this :
  (∀ x this, P this → P (after (f x) this)) →
  P this → P (after (for_each f l) this).
Proof.
  intros Hf. revert this. induction l as [|x l IH]; intros this HP; [done|].
  unfold after. rewrite for_each_cons.
  pose proof (Hf x this HP) as HP'. unfold after in HP'.
  destruct (f x this) as [this' [[]|e]]; [by apply IH | done].
Qed.

Lemma deleteKeys_from_invariant (P : BiMap K V → Prop) keys num this :
  (∀ key this, P this → P (after (deleteKey key) this)) →
  P this → P (after (deleteKeys_from keys num) this).
Proof.
  intros Hf. revert num this.
  induction keys as [|key keys IH]; intros num this HP; [done|].
  unfold after. simpl. rewrite bind_eq.
  pose proof (Hf key this HP) as HP'. unfold after in HP'.
  destruct (deleteKey key this) as [this' [b|e]]; [by apply IH | done].
Qed.

Lemma deleteValues_from_invariant (P : BiMap K V → Prop) values num this :
  (∀ value this, P this → P (after (deleteValue value) this)) →
  P this → P (after (deleteValues_from values num) this).
Proof.
  intros Hf. revert num this.
  induction values as [|value values IH]; intros num this HP; [done|].
  unfold after. simpl. rewrite bind_eq.
  pose proof (Hf value this HP) as HP'. unfold after in HP'.
  destruct (deleteValue value this) as [this' [b|e]]; [by apply IH | done].
Qed.

(** The copy [clone] makes of a mirrored state is that state. *)
Lemma clone_mirrored this : mirrored this → clone this = this.
Proof.
  intros (Hm & Hk & Hv). destruct this as [l l']. simpl in *. unfold clone. simpl.
  rewrite (from_entries_id l) by done.
  rewrite (from_entries_id l') by (by rewrite Hm, swap_fst). done.
Qed.

Lemma setAll_invariant (P : BiMap K V → Prop) pairs this :
  (∀ key value this, P this → P (after (set key value) this)) →
  P this → P (after (setAll pairs) this).
Proof.
  intros Hset HP. destruct pairs; simpl; apply for_each_invariant; auto.
Qed.

Lemma addAll_invariant (P : BiMap K V → Prop) pairs this :
  (∀ key value this, P this → P (after (add key value) this)) →
  P this → P (after (addAll pairs) this).
Proof.
  intros Hadd HP. destruct pairs; simpl; apply for_each_invariant; auto.
Qed.

(** Every reachable state is mirrored. *)
Lemma reachable_mirrored this : reachable this → mirrored this.
Proof.
  induction 1 as [|this key value _ IH|this key value _ IH|this pairs _ IH
                  |this pairs _ IH|this key _ IH|this value _ IH|this keys _ IH
                  |this values _ IH|this _ IH|this _ IH].
  - apply mirrored_new.
  - by apply mirrored_set.
  - by apply mirrored_add.
  - apply setAll_invariant; [|done]. intros. by apply mirrored_set.
  - apply addAll_invariant; [|done]. intros. by apply mirrored_add.
  - by apply mirrored_deleteKey.
  - by apply mirrored_deleteValue.
  - unfold deleteKeys. apply deleteKeys_from_invariant; [|done].
    intros. by apply mirrored_deleteKey.
  - unfold deleteValues. apply deleteValues_from_invariant; [|done].
    intros. by apply mirrored_deleteValue.
  - apply mirrored_new.
  - by rewrite clone_mirrored.
Qed.
End reachable_facts.

(** ** Counting what a deletion removes *)

Section counting.
Context {A B : Type} `{EqDecision A, EqDecision B}.
Implicit Types (l : list (A * B)).

Lemma filter_fst_eq_fresh l a : a ∉ l.*1 → filter (λ e, e.1 = a) l = [].
Proof.
  induction l as [|x l IH]; [done|]. csimpl.
  intros [Hne Hin]%not_elem_of_cons.
  rewrite filter_cons_False by (simpl; congruence). by apply IH.
Qed.

Lemma filter_snd_eq_fresh l b : b ∉ l.*2 → filter (λ e, e.2 = b) l = [].
Proof.
  induction l as [|x l IH]; [done|]. csimpl.
  intros [Hne Hin]%not_elem_of_cons.
  rewrite filter_cons_False by (simpl; congruence). by apply IH.
Qed.

(** Removing the entries with a given first component removes at most
    one entry when first components are not repeated. *)
Lemma length_filter_fst_ne l a :
  NoDup l.*1 → length l ≤ S (length (filter (λ e, e.1 ≠ a) l)).
Proof.
  induction l as [|x l IH]; [simpl; lia|]. csimpl.
  intros [Hx Hnd]%NoDup_cons. rewrite filter_cons.
  destruct (decide (x.1 ≠ a)) as [Hne|Heq]; simpl.
  - specialize (IH Hnd). lia.
  - apply dec_stable in Heq. subst a. rewrite filter_fst_fresh by done. lia.
Qed.

Lemma length_filter_snd_ne l b :
  NoDup l.*2 → length l ≤ S (length (filter (λ e, e.2 ≠ b) l)).
Proof.
  induction l as [|x l IH]; [simpl; lia|]. csimpl.
  intros [Hx Hnd]%NoDup_cons. rewrite filter_cons.
  destruct (decide (x.2 ≠ b)) as [Hne|Heq]; simpl.
  - specialize (IH Hnd). lia.
  - apply dec_stable in Heq. subst b. rewrite filter_snd_fresh by done. lia.
Qed.
End counting.

(** ** The bijection between keys and values *)

(** C1. In every reachable state the forward and the inverse table are
    exact inverses: the forward table maps [key] to [value] if and only if
    the inverse table maps [value] to [key]. Hence looking up the value of
    a key that [hasKey] accepts and then the key of that value gives the
    key back, and symmetrically from a value that [hasValue] accepts. *)
Theorem bijection_invariant {K V : Type} `{EqDecision K, EqDecision V, CastKey K}
    (this : BiMap K V) :
  reachable this →
  (∀ key value,
     JSMap.get (key2value this) key = Some value
     ↔ JSMap.get (value2key this) value = Some key)
  ∧ (∀ key, returns (hasKey key) this true →
       ∃ value, returns (getValue key) this (Some value)
                ∧ returns (getKey value) this (Some key))
  ∧ (∀ value, returns (hasValue value) this true →
       ∃ key, returns (getKey value) this (Some key)
              ∧ returns (getValue key) this (Some value)).
Proof.
  intros Hmir%reachable_mirrored.
  assert (∀ key value,
     JSMap.get (key2value this) key = Some value
     ↔ JSMap.get (value2key this) value = Some key) as Hinv.
  { intros key value.
    by rewrite mirrored_get_forward, mirrored_get_inverse. }
  split; [done|]. unfold returns. split.
  - intros key [= Hhas]. apply has_get in Hhas as [value Hget].
    exists value. simpl. split; f_equal; [done|by apply Hinv].
  - intros value [= Hhas]. apply has_get in Hhas as [key Hget].
    exists key. simpl. split; f_equal; [done|by apply Hinv].
Qed.

(** The containers of the examples are reachable: each is what [from]
    builds from a plain object. *)
Section example_states.
Local Open Scope Z_scope.

Lemma from_reachable (pairs : Pairs string Z) this :
  from pairs = Return this → reachable this.
Proof.
  unfold from. intros Hfrom.
  pose proof (reach_addAll new pairs reach_new) as Hreach. unfold after in Hreach.
  destruct (addAll pairs new) as [this' [[]|e]]; [|done].
  by injection Hfrom as <-.
Qed.

Lemma reachable_one : reachable bimap_one.
Proof. by apply (from_reachable (PairsRecord [("one", 1)])). Qed.

Lemma reachable_one_two : reachable bimap_one_two.
Proof. by apply (from_reachable source_record). Qed.

Lemma reachable_a1_b2 : reachable bimap_a1_b2.
Proof. by apply (from_reachable (PairsRecord [("a", 1); ("b", 2)])). Qed.

Lemma reachable_a1 : reachable bimap_a1.
Proof. by apply (from_reachable (PairsRecord [("a", 1)])). Qed.
End example_states.

Lemma bijection_invariant_witness :
  reachable bimap_one_two
  ∧ (∀ key value,
       JSMap.get (key2value bimap_one_two) key = Some value
       ↔ JSMap.get (value2key bimap_one_two) value = Some key).
Proof.
  split; [exact reachable_one_two|].
  exact (proj1 (bijection_invariant bimap_one_two reachable_one_two)).
Defined.

(** ** [set]: the upsert policy *)

(** C2. On a reachable state [set(key, value)] never throws; it removes the
    pair keyed [key] and the pair valued [value], keeps every other pair in
    place and puts [(key, value)] last. Afterwards exactly one pair has key
    [key], exactly one has value [value], and it is [(key, value)] in both
    cases; the size goes down by one, stays, or goes up by one. From
    [{a: 1, b: 2}], [set('a', 2)] leaves exactly [{a: 2}] and the size goes
    from 2 to 1. *)
Theorem set_upsert :
  (∀ {K V : Type} `{EqDecision K, EqDecision V, CastKey K}
     (this : BiMap K V) (key : K) (value : V),
     reachable this →
     let this' := after (set key value) this in
     returns (set key value) this ()
     ∧ this' = after (bind (on_key2value (λ m, JSMap.set m key value))
                          (λ _, on_value2key (λ m, JSMap.set m value key)))
                 (after (deleteValue value) (after (deleteKey key) this))
     ∧ entries this'
       = filter (λ e, e.1 ≠ key ∧ e.2 ≠ value) (entries this) ++ [(key, value)]
     ∧ value2key this' = prod_swap <$> key2value this'
     ∧ filter (λ e, e.1 = key) (entries this') = [(key, value)]
     ∧ filter (λ e, e.2 = value) (entries this') = [(key, value)]
     ∧ (S (size this') = size this ∨ size this' = size this
        ∨ size this' = S (size this)))
  ∧ (after (set "a" 2%Z) bimap_a1_b2 = bimap_a2
     ∧ size bimap_a1_b2 = 2 ∧ size bimap_a2 = 1).
Proof.
  split; [|by vm_compute].
  intros K V ? ? ? this key value Hmir%reachable_mirrored this'.
  destruct (mirrored_set this key value Hmir) as [Hmir' Hl]. fold this' in Hmir', Hl.
  assert (key ∉ (filter (λ e : K * V, e.1 ≠ key ∧ e.2 ≠ value) (key2value this)).*1)
    as Hkey by (apply notin_fst_filter; intros x [? ?]; done).
  assert (value ∉ (filter (λ e : K * V, e.1 ≠ key ∧ e.2 ≠ value) (key2value this)).*2)
    as Hvalue by (apply notin_snd_filter; intros x [? ?]; done).
  unfold entries, JSMap.entries, size, JSMap.size. rewrite Hl.
  repeat split.
  - unfold returns. by rewrite set_eq.
  - subst this'. unfold after at 1. by rewrite set_eq.
  - rewrite <- Hl. apply Hmir'.
  - rewrite filter_app, filter_fst_eq_fresh by done. by rewrite filter_cons_True.
  - rewrite filter_app, filter_snd_eq_fresh by done. by rewrite filter_cons_True.
  - rewrite length_app. simpl.
    destruct Hmir as (_ & Hk & Hv).
    pose proof (length_filter_fst_ne (key2value this) key Hk) as H1.
    pose proof (length_filter_snd_ne (filter (λ e, e.1 ≠ key) (key2value this)) value
                  (NoDup_snd_filter _ _ Hv)) as H2.
    rewrite list_filter_filter in H2.
    rewrite (list_filter_iff (λ e, e.2 ≠ value ∧ e.1 ≠ key)
               (λ e, e.1 ≠ key ∧ e.2 ≠ value)) in H2 by (intros x; simpl; tauto).
    pose proof (length_filter (λ e, e.1 ≠ key ∧ e.2 ≠ value) (key2value this)) as H3.
    lia.
Qed.

Lemma set_upsert_witness :
  reachable bimap_a1_b2
  ∧ entries (after (set "a" 2%Z) bimap_a1_b2)
    = filter (λ e, e.1 ≠ "a" ∧ e.2 ≠ 2%Z) (entries bimap_a1_b2) ++ [("a", 2%Z)].
Proof.
  split; [exact reachable_a1_b2|].
  exact (proj1 (proj2 (proj2 (proj1 set_upsert _ _ _ _ _ bimap_a1_b2 "a" 2%Z
                                reachable_a1_b2)))).
Defined.

(** ** [add]: the strict policy *)


(** C4. Whenever [add(key, value)] throws, the state it leaves is the state
    it found: neither table is modified. From [{one: 1}], [add('one', 2)]
    throws the key conflict and [add('two', 1)] throws the value conflict,
    and both leave [{one: 1}]. *)
Theorem add_failure_unchanged :
  (∀ {K V : Type} `{EqDecision K, EqDecision V}
     (this : BiMap K V) (key : K) (value : V) (e : BiMapError K V),
     throws (add key value) this e → after (add key value) this = this)
  ∧ (from (PairsRecord [("one", 1%Z)]) = Return bimap_one
     ∧ throws (add "one" 2%Z) bimap_one (BiMapKeyConflictError "one")
     ∧ after (add "one" 2%Z) bimap_one = bimap_one
     ∧ throws (add "two" 1%Z) bimap_one (BiMapValueConflictError 1%Z)
     ∧ after (add "two" 1%Z) bimap_one = bimap_one).
Proof.
  split; [|by vm_compute].
  intros K V ? ? this key value e. unfold throws, after. rewrite add_eq.
  destruct (JSMap.has (key2value this) key); [done|].
  destruct (JSMap.has (value2key this) value); done.
Qed.

Lemma add_failure_unchanged_witness :
  throws (add "one" 2%Z) bimap_one (BiMapKeyConflictError "one")
  ∧ after (add "one" 2%Z) bimap_one = bimap_one.
Proof.
  assert (throws (add "one" 2%Z) bimap_one (BiMapKeyConflictError "one")) as Hthrows
    by (vm_compute; reflexivity).
  split; [exact Hthrows|].
  exact (proj1 add_failure_unchanged _ _ _ _ bimap_one "one" 2%Z _ Hthrows).
Defined.

(** ** Deletion by key *)

(** C5. On a reachable state [deleteKey(key)] never throws and returns
    [true] exactly when a pair keyed [key] is stored. The forward table
    loses the entry for [key], the inverse table loses the entry that maps
    to [key], and every other entry of both tables stays where it is. When
    no pair is keyed [key] it returns [false] and changes nothing. From
    [{one: 1, two: 2}], [deleteKey('one')] returns [true] and leaves
    [{two: 2}]; a second [deleteKey('one')] returns [false] and leaves
    [{two: 2}]. *)
Theorem deleteKey_correct :
  (∀ {K V : Type} `{EqDecision K, EqDecision V, CastKey K}
     (this : BiMap K V) (key : K),
     reachable this →
     let this' := after (deleteKey key) this in
     (returns (deleteKey key) this true ↔ ∃ value, (key, value) ∈ entries this)
     ∧ (returns (deleteKey key) this false ↔ key ∉ keys this)
     ∧ key2value this' = filter (λ e, e.1 ≠ key) (key2value this)
     ∧ value2key this' = filter (λ e, e.2 ≠ key) (value2key this)
     ∧ (returns (deleteKey key) this false → this' = this))
  ∧ (returns (deleteKey "one") bimap_one_two true
     ∧ after (deleteKey "one") bimap_one_two = bimap_two
     ∧ returns (deleteKey "one") bimap_two false
     ∧ after (deleteKey "one") bimap_two = bimap_two).
Proof.
  split; [|by vm_compute].
  intros K V ? ? ? this key Hmir%reachable_mirrored this'.
  destruct (mirrored_deleteKey this key Hmir) as [(Hm' & _) Hl]. fold this' in Hm', Hl.
  assert (value2key this' = filter (λ e, e.2 ≠ key) (value2key this)) as Hl'.
  { rewrite Hm', Hl. destruct Hmir as (-> & _). by rewrite filter_swap. }
  subst this'. unfold returns, after, keys, JSMap.keys, entries, JSMap.entries in *.
  rewrite deleteKey_eq in *.
  destruct (JSMap.get (key2value this) key) as [v|] eqn:Hget; simpl in *.
  - repeat split; try done.
    + intros _. exists v. by apply get_Some_elem.
    + intros Hnot. apply get_None in Hnot. congruence.
  - repeat split; try done.
    + intros [v Hin]. apply (elem_get _ _ _ (proj1 (proj2 Hmir))) in Hin. congruence.
    + intros _. by apply get_None.
Qed.

Lemma deleteKey_correct_witness :
  reachable bimap_one_two
  ∧ key2value (after (deleteKey "one") bimap_one_two)
    = filter (λ e, e.1 ≠ "one") (key2value bimap_one_two).
Proof.
  split; [exact reachable_one_two|].
  exact (proj1 (proj2 (proj2 (proj1 deleteKey_correct _ _ _ _ _ bimap_one_two "one"
                                reachable_one_two)))).
Defined.

(** ** Lookups *)

(** C9. On a reachable state the lookups never throw and leave the state
    alone. [getValue(key)] returns the value of the stored pair keyed
    [key], which is there exactly when [hasKey(key)], and the absent result
    when no pair is keyed [key]; [getKey(value)] returns the key of the
    stored pair valued [value], which is there exactly when
    [hasValue(value)], and the absent result when no pair is valued
    [value]. On the container built from [{one: 1}], [getValue('one')] is
    [1] and [getKey(1)] is ['one'], while [getValue('two')] and [getKey(2)]
    both return the absent result. *)
Theorem lookup_or_absent :
  (∀ {K V : Type} `{EqDecision K, EqDecision V, CastKey K}
     (this : BiMap K V) (key : K) (value : V),
     reachable this →
     (∀ v, (key, v) ∈ entries this ↔ returns (getValue key) this (Some v))
     ∧ (key ∉ keys this ↔ returns (getValue key) this None)
     ∧ (∀ k, (k, value) ∈ entries this ↔ returns (getKey value) this (Some k))
     ∧ (value ∉ values this ↔ returns (getKey value) this None)
     ∧ (returns (hasKey key) this true ↔ ∃ v, (key, v) ∈ entries this)
     ∧ (returns (hasValue value) this true ↔ ∃ k, (k, value) ∈ entries this)
     ∧ (returns (hasKey key) this true →
          ∃ v, returns (getValue key) this (Some v) ∧ (key, v) ∈ entries this)
     ∧ (returns (hasKey key) this false → returns (getValue key) this None)
     ∧ (returns (hasValue value) this true →
          ∃ k, returns (getKey value) this (Some k) ∧ (k, value) ∈ entries this)
     ∧ (returns (hasValue value) this false → returns (getKey value) this None)
     ∧ (∃ o, getValue key this = (this, Return o))
     ∧ (∃ o, getKey value this = (this, Return o)))
  ∧ (from (PairsRecord [("one", 1%Z)]) = Return bimap_one
     ∧ returns (hasKey "one") bimap_one true
     ∧ returns (getValue "one") bimap_one (Some 1%Z)
     ∧ returns (hasValue 1%Z) bimap_one true
     ∧ returns (getKey 1%Z) bimap_one (Some "one")
     ∧ returns (getValue "two") bimap_one None
     ∧ returns (getKey 2%Z) bimap_one None).
Proof.
  split; [|by vm_compute].
  intros K V ? ? ? this key value Hmir%reachable_mirrored.
  pose proof Hmir as (Hm & Hk & Hv).
  unfold returns, entries, keys, values, JSMap.entries, JSMap.keys.
  rewrite hasKey_eq, hasValue_eq, getValue_eq, getKey_eq. simpl.
  unfold JSMap.has.
  assert ((value2key this).*1 = (key2value this).*2) as Hvalues
    by (by rewrite Hm, swap_fst).
  split; [|split; [|split; [|split; [|split; [|split]]]]].
  - intros v. rewrite <- (mirrored_get_forward this key v Hmir).
    split; [by intros ->|by intros [= ->]].
  - rewrite <- get_None. split; [by intros ->|by intros [= ->]].
  - intros k. rewrite <- (mirrored_get_inverse this k value Hmir).
    split; [by intros ->|by intros [= ->]].
  - rewrite <- get_None. split; [by intros ->|by intros [= ->]].
  - destruct (JSMap.get (key2value this) key) as [v|] eqn:Hget.
    + split; [|done]. intros _. exists v. by apply get_Some_elem.
    + split; [done|]. intros [v Hin]. apply get_None in Hget. exfalso.
      apply Hget. by apply (list_elem_of_fmap_2 fst) in Hin.
  - destruct (JSMap.get (value2key this) value) as [k|] eqn:Hget.
    + split; [|done]. intros _. exists k. by apply mirrored_get_inverse.
    + split; [done|]. intros [k Hin]. apply get_None in Hget. exfalso.
      apply Hget. rewrite Hvalues. by apply (list_elem_of_fmap_2 snd) in Hin.
  - repeat split.
    + destruct (JSMap.get (key2value this) key) as [v|] eqn:Hget; [|done].
      intros _. exists v. split; [done|]. by apply get_Some_elem.
    + by destruct (JSMap.get (key2value this) key).
    + destruct (JSMap.get (value2key this) value) as [k|] eqn:Hget; [|done].
      intros _. exists k. split; [done|]. by apply mirrored_get_inverse.
    + by destruct (JSMap.get (value2key this) value).
    + by eexists.
    + by eexists.
Qed.

Lemma elem_one_one : ("one", 1%Z) ∈ entries bimap_one.
Proof. apply list_elem_of_here. Qed.

Lemma lookup_or_absent_witness :
  reachable bimap_one
  ∧ ("one", 1%Z) ∈ entries bimap_one
  ∧ returns (getValue "one") bimap_one (Some 1%Z).
Proof.
  split; [exact reachable_one|]. split; [exact elem_one_one|].
  exact (proj1 (proj1 (proj1 lookup_or_absent _ _ _ _ _ bimap_one "one" 1%Z
                         reachable_one) 1%Z) elem_one_one).
Defined.

(** ** Batches *)

Section batch_facts.
Context {K V : Type} `{EqDecision K, EqDecision V, CastKey K}.
Implicit Types (this : BiMap K V) (l : list (K * V)).

Lemma for_each_fmap {A B} (g : A → B) (f : B → method ()) (l : list A) this :
  for_each f (g <$> l) this = for_each (λ x, f (g x)) l this.
Proof.
  revert this. induction l as [|x l IH]; intros this; [done|].
  rewrite fmap_cons, !for_each_cons.
  destruct (f (g x) this) as [this' [[]|e]]; [apply IH | done].
Qed.

Lemma for_each_app {A} (f : A → method ()) (l1 l2 : list A) this :
  for_each f (l1 ++ l2) this =
    match for_each f l1 this with
    | (this', Return _) => for_each f l2 this'
    | (this', Throw e) => (this', Throw e)
    end.
Proof.
  revert this. induction l1 as [|x l1 IH]; intros this; [done|].
  rewrite <- app_comm_cons, !for_each_cons.
  destruct (f x this) as [this' [[]|e]]; [apply IH | done].
Qed.


(** Both batch methods are one loop over the pairs of the source,
    whatever its shape. *)
Lemma addAll_eq (pairs : Pairs K V) this :
  addAll pairs this = for_each (λ e, add e.1 e.2) (pairs_of pairs) this.
Proof. destruct pairs; simpl; [done..|]. by rewrite for_each_fmap. Qed.

Lemma setAll_eq (pairs : Pairs K V) this :
  setAll pairs this = for_each (λ e, set e.1 e.2) (pairs_of pairs) this.
Proof. destruct pairs; simpl; [done..|]. by rewrite for_each_fmap. Qed.

(** The pairs a run of [add]s has appended when it returns. *)
Lemma for_each_add_returns l this this' :
  for_each (λ e, add e.1 e.2) l this = (this', Return ()) →
  key2value this' = key2value this ++ l
  ∧ value2key this' = value2key this ++ (prod_swap <$> l).
Proof.
  revert this. induction l as [|[k v] l IH]; intros this.
  - intros [= <-]. by rewrite !app_nil_r.
  - rewrite for_each_cons. cbn [fst snd].
    destruct (add k v this) as [this1 [[]|e]] eqn:Hadd; [|done].
    intros [-> ->]%IH. apply add_returns in Hadd as [-> ->].
    by rewrite <- !app_assoc.
Qed.

(** From a mirrored state, a run of [add]s returns exactly when it meets
    no key and no value twice. *)
Lemma for_each_add_returns_iff l this :
  mirrored this →
  (∃ this', for_each (λ e, add e.1 e.2) l this = (this', Return ()))
  ↔ NoDup (key2value this ++ l).*1 ∧ NoDup (key2value this ++ l).*2.
Proof.
  revert this. induction l as [|[k v] l IH]; intros this Hmir.
  - rewrite app_nil_r. split; [intros _; apply Hmir | intros _; by exists this].
  - rewrite for_each_cons. cbn [fst snd]. rewrite add_eq.
    rewrite !fmap_app, !fmap_cons. cbn [fst snd].
    destruct (JSMap.has (key2value this) k) eqn:Hk.
    { split; [by intros [? ?]|]. intros [(_ & Hdisj & _)%NoDup_app _].
      exfalso. apply has_true in Hk. apply (Hdisj k Hk), list_elem_of_here. }
    destruct (JSMap.has (value2key this) v) eqn:Hv.
    { split; [by intros [? ?]|]. intros [_ (_ & Hdisj & _)%NoDup_app].
      exfalso. apply mirrored_has_inverse in Hv; [|done].
      apply (Hdisj v Hv), list_elem_of_here. }
    apply has_false in Hk.
    assert (v ∉ (key2value this).*2) as Hv'.
    { intros Hin. apply (mirrored_has_inverse this v Hmir) in Hin. congruence. }
    destruct (mirrored_append this k v Hmir Hk Hv') as [Hmir' Hl].
    rewrite (IH _ Hmir'), Hl, <- !app_assoc, !fmap_app. done.
Qed.
End batch_facts.


Example addAll_stops_at_conflict :
  addAll (PairsArray [("two", 2%Z); ("one", 3%Z); ("three", 3%Z)]) bimap_one
  = (bimap_one_two, Throw (BiMapKeyConflictError "one")).
Proof. by vm_compute. Qed.

(** ** Construction *)

Section from_facts.
Context {K V : Type} `{EqDecision K, EqDecision V, CastKey K}.
Implicit Types (this : BiMap K V) (pairs : Pairs K V).

Lemma from_Return pairs this :
  from pairs = Return this ↔ addAll pairs new = (this, Return ()).
Proof.
  unfold from. destruct (addAll pairs new) as [this' [[]|e]]; split; congruence.
Qed.


(** [from] returns exactly when the source repeats no key and no value,
    and then both tables hold the pairs of the source in its order. *)
Lemma from_Return_iff pairs :
  (∃ this, from pairs = Return this)
  ↔ NoDup (pairs_of pairs).*1 ∧ NoDup (pairs_of pairs).*2.
Proof.
  pose proof (for_each_add_returns_iff (pairs_of pairs) new mirrored_new) as Hiff.
  simpl in Hiff. rewrite <- Hiff.
  split; intros [this Hthis]; exists this.
  - apply from_Return in Hthis. by rewrite addAll_eq in Hthis.
  - apply from_Return. by rewrite addAll_eq.
Qed.

Lemma from_Return_tables pairs this :
  from pairs = Return this →
  key2value this = pairs_of pairs
  ∧ value2key this = prod_swap <$> pairs_of pairs.
Proof.
  intros Hfrom%from_Return. rewrite addAll_eq in Hfrom.
  by apply for_each_add_returns in Hfrom as [? ?].
Qed.

Lemma from_Return_mirrored pairs this : from pairs = Return this → mirrored this.
Proof.
  intros Hfrom. destruct (from_Return_tables _ _ Hfrom) as [Hk Hv].
  destruct (proj1 (from_Return_iff pairs)) as [? ?]; [by exists this|].
  unfold mirrored. by rewrite Hv, Hk.
Qed.


End from_facts.

Section permuted_tables.
Context {K V : Type} `{EqDecision K}.
Implicit Types (m : list (K * V)).

End permuted_tables.



(** ** Setting a pair that is already stored *)

Section move_last.
Context {A : Type} `{EqDecision A}.
Implicit Types (l : list A) (x : A).

Lemma filter_ne_fresh l x : x ∉ l → filter (λ y, y ≠ x) l = l.
Proof.
  induction l as [|y l IH]; [done|]. intros [Hne Hin]%not_elem_of_cons.
  rewrite filter_cons_True by congruence. by rewrite IH.
Qed.

(** Taking an element out and putting it last keeps the elements. *)
Lemma move_last_Permutation l x :
  NoDup l → x ∈ l → filter (λ y, y ≠ x) l ++ [x] ≡ₚ l.
Proof.
  induction l as [|y l IH]; intros Hnd Hin; [by apply elem_of_nil in Hin|].
  apply NoDup_cons in Hnd as [Hy Hnd]. rewrite filter_cons.
  destruct (decide (y ≠ x)) as [Hne|Heq].
  - apply elem_of_cons in Hin as [->|Hin]; [done|].
    simpl. f_equiv. by apply IH.
  - apply dec_stable in Heq. subst y. rewrite filter_ne_fresh by done.
    symmetry. apply Permutation_cons_append.
Qed.

(** It changes the order unless the element was last already. *)
Lemma move_last_same_iff l x :
  NoDup l → filter (λ y, y ≠ x) l ++ [x] = l ↔ last l = Some x.
Proof.
  intros Hnd. split.
  - intros <-. apply last_snoc.
  - intros (l' & ->)%last_Some. rewrite filter_app.
    apply NoDup_app in Hnd as (_ & Hdisj & _).
    rewrite filter_ne_fresh.
    + by rewrite filter_cons_False, filter_nil, app_nil_r by (intros Hne; by apply Hne).
    + intros Hin. apply (Hdisj x Hin), list_elem_of_here.
Qed.
End move_last.

Section fmap_filter.
Context {A B : Type}.

Lemma filter_fmap (f : A → B) (P : B → Prop) `{!∀ x, Decision (P x)} (l : list A) :
  filter P (f <$> l) = f <$> filter (λ x, P (f x)) l.
Proof.
  induction l as [|x l IH]; [done|].
  rewrite fmap_cons, !filter_cons, IH. by destruct (decide (P (f x))).
Qed.
End fmap_filter.

(** C10 as amended. On a reachable state that already holds the pair
    [(key, value)], [set(key, value)] never throws, keeps the pairs and the
    size, and puts the pair last in what [entries()], [keys()] and
    [values()] produce, leaving the other pairs in their order. The order
    changes exactly when the pair was not the last one already. From
    [{a: 1, b: 2}], [set('a', 1)] gives the order [b, a]. *)
Theorem set_same_pair_moves_last :
  (∀ {K V : Type} `{EqDecision K, EqDecision V, CastKey K}
     (this : BiMap K V) (key : K) (value : V),
     reachable this → (key, value) ∈ entries this →
     let this' := after (set key value) this in
     returns (set key value) this ()
     ∧ entries this' = filter (λ e, e ≠ (key, value)) (entries this) ++ [(key, value)]
     ∧ keys this' = filter (λ k, k ≠ key) (keys this) ++ [key]
     ∧ values this' = filter (λ v, v ≠ value) (values this) ++ [value]
     ∧ entries this' ≡ₚ entries this
     ∧ size this' = size this
     ∧ (entries this' ≠ entries this ↔ last (entries this) ≠ Some (key, value))
     ∧ (keys this' ≠ keys this ↔ last (entries this) ≠ Some (key, value))
     ∧ (values this' ≠ values this ↔ last (entries this) ≠ Some (key, value)))
  ∧ (entries (after (set "a" 1%Z) bimap_a1_b2) = [("b", 2%Z); ("a", 1%Z)]
     ∧ keys (after (set "a" 1%Z) bimap_a1_b2) = ["b"; "a"]
     ∧ values (after (set "a" 1%Z) bimap_a1_b2) = [2%Z; 1%Z]).
Proof.
  split; [|by vm_compute].
  intros K V ? ? ? this key value Hreach Hin this'.
  pose proof (reachable_mirrored this Hreach) as Hmir.
  destruct (mirrored_set this key value Hmir) as [Hmir' Hl]. fold this' in Hmir', Hl.
  destruct Hmir as (Hm & Hk & Hv). destruct Hmir' as (Hm' & _).
  unfold entries, keys, values, size, JSMap.entries, JSMap.keys, JSMap.size in *.
  assert (NoDup (key2value this)) as Hnd by (by apply NoDup_fmap_1 in Hk).
  assert (∀ x, x ∈ key2value this → x.1 ≠ key ↔ x ≠ (key, value)) as Hfst.
  { intros [k v] Hx. simpl. split; [congruence|]. intros Hne ->. apply Hne. f_equal.
    by apply (same_key_same_value _ key value (key, v) Hk Hv Hin Hx). }
  assert (∀ x, x ∈ key2value this → x.2 ≠ value ↔ x ≠ (key, value)) as Hsnd.
  { intros [k v] Hx. simpl. split; [congruence|]. intros Hne ->. apply Hne. f_equal.
    by apply (same_key_same_value _ key value (k, value) Hk Hv Hin Hx). }
  assert (key2value this'
          = filter (λ e, e ≠ (key, value)) (key2value this) ++ [(key, value)]) as Hl1.
  { rewrite Hl. f_equal. apply filter_agree. intros x Hx.
    specialize (Hfst x Hx). specialize (Hsnd x Hx). tauto. }
  assert ((key2value this').*1 = filter (λ k, k ≠ key) (key2value this).*1 ++ [key])
    as Hkeys.
  { rewrite Hl1, fmap_app, filter_fmap. do 2 f_equal. symmetry. by apply filter_agree. }
  assert ((key2value this').*2 = filter (λ v, v ≠ value) (key2value this).*2 ++ [value])
    as Hvalues.
  { rewrite Hl1, fmap_app, filter_fmap. do 2 f_equal. symmetry. by apply filter_agree. }
  assert (∀ e, last (key2value this) = Some e → e ∈ key2value this) as Hlast_in.
  { intros e (l' & Hl')%last_Some. rewrite Hl'. apply elem_of_app. right.
    apply list_elem_of_here. }
  assert (last (key2value this).*1 = Some key
          ↔ last (key2value this) = Some (key, value)) as Hlastk.
  { rewrite fmap_last. destruct (last (key2value this)) as [[k v]|] eqn:Hlast; [|done].
    simpl. split; [|by intros [= -> ->]]. intros [= ->]. do 2 f_equal.
    by apply (same_key_same_value _ key value (key, v) Hk Hv Hin (Hlast_in _ eq_refl)). }
  assert (last (key2value this).*2 = Some value
          ↔ last (key2value this) = Some (key, value)) as Hlastv.
  { rewrite fmap_last. destruct (last (key2value this)) as [[k v]|] eqn:Hlast; [|done].
    simpl. split; [|by intros [= -> ->]]. intros [= ->]. do 2 f_equal.
    by apply (same_key_same_value _ key value (k, value) Hk Hv Hin (Hlast_in _ eq_refl)). }
  assert (value2key this = prod_swap <$> key2value this) as Hm0 by done.
  rewrite Hm', Hm0, !swap_fst.
  split; [unfold returns; by rewrite set_eq|].
  split; [done|]. split; [done|]. split; [done|].
  split; [rewrite Hl1; by apply move_last_Permutation|].
  split; [rewrite Hl1; by rewrite (move_last_Permutation _ _ Hnd Hin)|].
  split; [|split].
  - rewrite Hl1. by rewrite <- (move_last_same_iff (key2value this) (key, value) Hnd).
  - rewrite Hkeys, <- Hlastk.
    by rewrite <- (move_last_same_iff (key2value this).*1 key Hk).
  - rewrite Hvalues, <- Hlastv.
    by rewrite <- (move_last_same_iff (key2value this).*2 value Hv).
Qed.

Lemma elem_a1_b2_a : ("a", 1%Z) ∈ entries bimap_a1_b2.
Proof. apply list_elem_of_here. Qed.

Lemma elem_a1_b2_b : ("b", 2%Z) ∈ entries bimap_a1_b2.
Proof. apply list_elem_of_further, list_elem_of_here. Qed.

Lemma set_same_pair_moves_last_witness :
  reachable bimap_a1_b2
  ∧ ("a", 1%Z) ∈ entries bimap_a1_b2
  ∧ size (after (set "a" 1%Z) bimap_a1_b2) = size bimap_a1_b2.
Proof.
  split; [exact reachable_a1_b2|]. split; [exact elem_a1_b2_a|].
  exact (proj1 (proj2 (proj2 (proj2 (proj2 (proj2
           (proj1 set_same_pair_moves_last _ _ _ _ _ bimap_a1_b2 "a" 1%Z
              reachable_a1_b2 elem_a1_b2_a))))))).
Defined.

(** C10 as stated fails when the pair is the last one: [{a: 1, b: 2}] holds
    [(b, 2)], and after [set('b', 2)] the sequences of [entries()], [keys()]
    and [values()] are what they were. *)
Lemma set_same_pair_order_counterexample :
  reachable bimap_a1_b2
  ∧ ("b", 2%Z) ∈ entries bimap_a1_b2
  ∧ ¬ (entries (after (set "b" 2%Z) bimap_a1_b2) ≠ entries bimap_a1_b2
       ∨ keys (after (set "b" 2%Z) bimap_a1_b2) ≠ keys bimap_a1_b2
       ∨ values (after (set "b" 2%Z) bimap_a1_b2) ≠ values bimap_a1_b2).
Proof.
  split; [exact reachable_a1_b2|]. split; [exact elem_a1_b2_b|].
  intros [Hne|[Hne|Hne]]; apply Hne; by vm_compute.
Qed.

(** ** Containers as objects *)

Section heap_facts.
Context {K V : Type} `{EqDecision K, EqDecision V}.
Implicit Types (h : heap K V) (r : ref) (this : BiMap K V).

(** A container is three cells: its own and the two tables. *)
Lemma load_Some h r this :
  load h r = Some this ↔
  ∃ kv vk,
    h !! r = Some (ObjBiMap kv vk)
    ∧ h !! kv = Some (ObjForward (key2value this))
    ∧ h !! vk = Some (ObjInverse (value2key this)).
Proof.
  unfold load, fields. split.
  - destruct (h !! r) as [[| |kv vk]|] eqn:Hr; try done.
    destruct (h !! kv) as [[m| |]|] eqn:Hkv; try done.
    destruct (h !! vk) as [[|m'|]|] eqn:Hvk; try done.
    intros [= <-]. exists kv, vk. by rewrite Hkv, Hvk.
  - intros (kv & vk & -> & -> & ->). by destruct this.
Qed.

(** A call rewrites the two tables of the receiver and nothing else. *)
Lemma call_Some {A} (m : method A) h r this kv vk :
  h !! r = Some (ObjBiMap kv vk) →
  h !! kv = Some (ObjForward (key2value this)) →
  h !! vk = Some (ObjInverse (value2key this)) →
  call m r h
  = Some (<[vk := ObjInverse (value2key (m this).1)]>
            (<[kv := ObjForward (key2value (m this).1)]> h), (m this).2).
Proof.
  intros Hr Hkv Hvk. unfold call.
  assert (load h r = Some this) as -> by (apply load_Some; by exists kv, vk).
  unfold store, fields. by rewrite Hr.
Qed.

Lemma fields_Some h r kv vk :
  fields h r = Some (kv, vk) ↔ h !! r = Some (ObjBiMap kv vk).
Proof.
  unfold fields. destruct (h !! r) as [[| |kv' vk']|]; split; try done.
  - by intros [= -> ->].
  - by intros [= -> ->].
Qed.

(** A call on a container leaves a container apart from it as it is, and
    the two stay apart. *)
Lemma call_frame {A} (m : method A) h r1 r2 this1 this2 h' c :
  load h r1 = Some this1 → load h r2 = Some this2 → apart h r1 r2 →
  call m r1 h = Some (h', c) →
  load h' r1 = Some (m this1).1 ∧ load h' r2 = Some this2 ∧ apart h' r1 r2
  ∧ c = (m this1).2.
Proof.
  intros (kv1 & vk1 & Hr1 & Hkv1 & Hvk1)%load_Some
         (kv2 & vk2 & Hr2 & Hkv2 & Hvk2)%load_Some
         (kv1' & vk1' & kv2' & vk2' & Hf1 & Hf2 & Hkv & Hvk).
  apply fields_Some in Hf1, Hf2.
  rewrite Hr1 in Hf1. rewrite Hr2 in Hf2.
  injection Hf1 as <- <-. injection Hf2 as <- <-.
  rewrite (call_Some m h r1 this1 kv1 vk1) by done. intros [= <- <-].
  assert (kv1 < length h) as Hlt1 by (by apply lookup_lt_Some in Hkv1).
  assert (vk1 < length h) as Hlt2 by (by apply lookup_lt_Some in Hvk1).
  assert (vk1 ≠ kv1) by congruence.
  assert (vk1 ≠ r1) by congruence. assert (kv1 ≠ r1) by congruence.
  assert (vk1 ≠ r2) by congruence. assert (kv1 ≠ r2) by congruence.
  assert (vk1 ≠ kv2) by congruence. assert (kv1 ≠ vk2) by congruence.
  split; [|split; [|split; [|done]]].
  - apply load_Some. exists kv1, vk1. split; [|split].
    + by rewrite !list_lookup_insert_ne by done.
    + by rewrite list_lookup_insert_ne, list_lookup_insert_eq by done.
    + by rewrite list_lookup_insert_eq by (by rewrite length_insert).
  - apply load_Some. exists kv2, vk2.
    by rewrite !list_lookup_insert_ne by done.
  - exists kv1, vk1, kv2, vk2. rewrite !fields_Some.
    by rewrite !list_lookup_insert_ne by done.
Qed.

Lemma call_progress {A} (m : method A) h r this :
  load h r = Some this → ∃ h', call m r h = Some (h', (m this).2).
Proof.
  intros (kv & vk & Hr & Hkv & Hvk)%load_Some.
  eexists. by apply call_Some.
Qed.
End heap_facts.

Section clone_facts.
Context {K V : Type} `{EqDecision K, EqDecision V}.
Implicit Types (h : heap K V) (r : ref) (this : BiMap K V).

Lemma lookup_app_plus {A} (l1 l2 : list A) i : (l1 ++ l2) !! (length l1 + i) = l2 !! i.
Proof. rewrite lookup_app_r by lia. f_equal. lia. Qed.

(** [clone] adds five cells to the store: the two tables [new BiMap()]
    makes, the new container, and the two copies its fields end up with. *)
Lemma clone_obj_eq h r this :
  load h r = Some this →
  clone_obj r h
  = Some (h ++ [ObjForward []; ObjInverse [];
                ObjBiMap (length h + 3) (length h + 4);
                ObjForward (JSMap.from_entries (key2value this));
                ObjInverse (JSMap.from_entries (value2key this))],
          length h + 2).
Proof.
  intros Hload. unfold clone_obj. rewrite Hload.
  unfold new_obj, alloc, fields. simpl.
  rewrite <- !app_assoc. simpl.
  rewrite !length_app. simpl.
  rewrite (lookup_app_r h) by lia.
  replace (length h + 2 - length h) with 2 by lia. simpl.
  rewrite !(insert_app_r h). simpl.
  rewrite <- !app_assoc, !(insert_app_r h), !length_app. simpl.
  reflexivity.
Qed.

Lemma clone_obj_spec h r this :
  load h r = Some this →
  ∃ h' r',
    clone_obj r h = Some (h', r')
    ∧ h !! r' = None
    ∧ load h' r = Some this
    ∧ load h' r' = Some (clone this)
    ∧ apart h' r r'.
Proof.
  intros Hload. eexists _, _. split; [by apply clone_obj_eq|].
  apply load_Some in Hload as (kv & vk & Hr & Hkv & Hvk).
  pose proof (lookup_lt_Some _ _ _ Hr). pose proof (lookup_lt_Some _ _ _ Hkv).
  pose proof (lookup_lt_Some _ _ _ Hvk).
  split; [apply lookup_ge_None; lia|]. split; [|split].
  - apply load_Some. exists kv, vk. by rewrite !lookup_app_l by done.
  - apply load_Some. exists (length h + 3), (length h + 4).
    by rewrite !lookup_app_plus.
  - exists kv, vk, (length h + 3), (length h + 4). rewrite !fields_Some.
    rewrite lookup_app_l, lookup_app_plus by done.
    split; [done|]. split; [reflexivity|]. split; lia.
Qed.

Lemma apart_sym h r1 r2 : apart h r1 r2 → apart h r2 r1.
Proof.
  intros (kv1 & vk1 & kv2 & vk2 & ? & ? & ? & ?).
  by exists kv2, vk2, kv1, vk1.
Qed.

Lemma apart_ne h r1 r2 : apart h r1 r2 → r1 ≠ r2.
Proof. intros (kv1 & vk1 & kv2 & vk2 & ? & ? & ? & ?) ->. congruence. Qed.

(** Two containers apart from each other, under any calls on the one or
    the other: every call goes through, and each container ends in the
    state the calls made on it alone lead to. *)
Lemma calls_apart (ms : list (ref * invocation)) h r1 r2 this1 this2 :
  load h r1 = Some this1 → load h r2 = Some this2 → apart h r1 r2 →
  Forall (λ c, c.1 = r1 ∨ c.1 = r2) ms →
  ∃ h', calls ms h = Some h'
        ∧ load h' r1 = Some (run (calls_on r1 ms) this1)
        ∧ load h' r2 = Some (run (calls_on r2 ms) this2).
Proof.
  revert h this1 this2.
  induction ms as [|[r [A m]] ms IH]; intros h this1 this2 H1 H2 Hapart Hrefs.
  - by exists h.
  - apply Forall_cons in Hrefs as [Hr Hrefs]. simpl in Hr.
    pose proof (apart_ne _ _ _ Hapart) as Hne.
    unfold calls_on. rewrite !filter_cons. simpl.
    destruct Hr as [-> | ->].
    + destruct (call_progress m h r1 this1 H1) as [h1 Hcall]. rewrite Hcall.
      destruct (call_frame m _ _ _ _ _ _ _ H1 H2 Hapart Hcall) as (H1' & H2' & Hapart' & _).
      rewrite decide_True, decide_False by done. simpl.
      by apply IH.
    + destruct (call_progress m h r2 this2 H2) as [h1 Hcall]. rewrite Hcall.
      destruct (call_frame m _ _ _ _ _ _ _ H2 H1 (apart_sym _ _ _ Hapart) Hcall)
        as (H2' & H1' & Hapart' & _).
      rewrite decide_False, decide_True by done. simpl.
      apply IH; [done|done|by apply apart_sym|done].
Qed.
End clone_facts.

(** ** [clone] *)

(** C8. [clone()] on a container in a reachable state makes a new object
    whose two tables hold the entries of the original's, in the same order;
    the original is left as it is. From then on, under any calls of any
    methods on the original and on the clone, in any order, every call goes
    through and each of the two ends in the state that the calls made on
    it alone lead to; so calls on the clone alone leave the original as it
    is, and calls on the original alone leave the clone as it is. With
    [{one: 1, two: 2}] cloned and ['one'] deleted from the clone, the
    original still is [{one: 1, two: 2}], with [hasKey('one')] and
    [hasValue(1)]. *)
Theorem clone_independent :
  (∀ {K V : Type} `{EqDecision K, EqDecision V, CastKey K}
     (h : heap K V) (r : ref) (this : BiMap K V),
     load h r = Some this → reachable this →
     ∃ h' r',
       clone_obj r h = Some (h', r')
       ∧ h !! r' = None
       ∧ load h' r' = Some this
       ∧ load h' r = Some this
       ∧ (∀ ms, Forall (λ c, c.1 = r ∨ c.1 = r') ms →
            ∃ h'', calls ms h' = Some h''
                   ∧ load h'' r = Some (run (calls_on r ms) this)
                   ∧ load h'' r' = Some (run (calls_on r' ms) this))
       ∧ (∀ ms, Forall (λ c, c.1 = r') ms →
            ∃ h'', calls ms h' = Some h'' ∧ load h'' r = Some this)
       ∧ (∀ ms, Forall (λ c, c.1 = r) ms →
            ∃ h'', calls ms h' = Some h'' ∧ load h'' r' = Some this))
  ∧ (clone_obj 2 heap_one_two = Some (heap_cloned, 5)
     ∧ load heap_cloned 2 = Some bimap_one_two
     ∧ load heap_cloned 5 = Some bimap_one_two
     ∧ ∃ h'', call (deleteKey "one") 5 heap_cloned = Some (h'', Return true)
              ∧ load h'' 5 = Some bimap_two
              ∧ load h'' 2 = Some bimap_one_two
              ∧ returns (hasKey "one") bimap_one_two true
              ∧ returns (hasValue 1%Z) bimap_one_two true).
Proof.
  split.
  - intros K V ? ? ? h r this Hload Hmir%reachable_mirrored.
    destruct (clone_obj_spec h r this Hload) as (h' & r' & Hclone & Hnew & Hr & Hr' & Hapart).
    rewrite clone_mirrored in Hr' by done.
    exists h', r'. do 4 (split; [done|]).
    assert (∀ r1 r2 ms, r1 ≠ r2 → Forall (λ c : ref * invocation, c.1 = r2) ms →
              calls_on (K:=K) (V:=V) r1 ms = []) as Hnone.
    { intros r1 r2 ms Hne Hms. unfold calls_on.
      induction Hms as [|c ms Hc _ IH]; [done|].
      rewrite filter_cons_False by (simpl; congruence). done. }
    pose proof (apart_ne _ _ _ Hapart) as Hne.
    split; [|split].
    + intros ms Hms. by apply calls_apart.
    + intros ms Hms.
      destruct (calls_apart ms h' r r' this this Hr Hr' Hapart) as (h'' & Hc & Hl & _).
      { eapply Forall_impl; [exact Hms|]. intros c Hc. by right. }
      exists h''. split; [done|]. by rewrite (Hnone r r' ms) in Hl.
    + intros ms Hms.
      destruct (calls_apart ms h' r r' this this Hr Hr' Hapart) as (h'' & Hc & _ & Hl).
      { eapply Forall_impl; [exact Hms|]. intros c Hc. by left. }
      exists h''. split; [done|]. by rewrite (Hnone r' r ms) in Hl.
  - do 3 (split; [by vm_compute|]). eexists. by vm_compute.
Qed.

Lemma clone_independent_witness :
  load heap_one_two 2 = Some bimap_one_two
  ∧ reachable bimap_one_two
  ∧ ∃ h' r', clone_obj 2 heap_one_two = Some (h', r')
             ∧ load h' r' = Some bimap_one_two.
Proof.
  split; [reflexivity|]. split; [exact reachable_one_two|].
  destruct (proj1 clone_independent _ _ _ _ _ heap_one_two 2 bimap_one_two
              eq_refl reachable_one_two)
    as (h' & r' & Hclone & _ & Hload & _).
  exists h', r'. split; [exact Hclone | exact Hload].
Defined.


(** * Further properties *)

(** ** Deletion by value *)

Section more_counting.
Context {A B : Type} `{EqDecision A, EqDecision B}.
Implicit Types (l : list (A * B)).

Lemma length_filter_fst_present l a :
  NoDup l.*1 → a ∈ l.*1 → S (length (filter (λ e, e.1 ≠ a) l)) = length l.
Proof.
  intros Hnd (x & -> & Hx)%list_elem_of_fmap.
  pose proof (length_filter_fst_ne l x.1 Hnd).
  pose proof (length_filter_lt (λ e, e.1 ≠ x.1) l x Hx) as Hlt.
  assert (¬ x.1 ≠ x.1) as Hnn by (intros Hne; by apply Hne).
  specialize (Hlt Hnn). lia.
Qed.

Lemma length_filter_snd_present l b :
  NoDup l.*2 → b ∈ l.*2 → S (length (filter (λ e, e.2 ≠ b) l)) = length l.
Proof.
  intros Hnd (x & -> & Hx)%list_elem_of_fmap.
  pose proof (length_filter_snd_ne l x.2 Hnd).
  pose proof (length_filter_lt (λ e, e.2 ≠ x.2) l x Hx) as Hlt.
  assert (¬ x.2 ≠ x.2) as Hnn by (intros Hne; by apply Hne).
  specialize (Hlt Hnn). lia.
Qed.
End more_counting.

(** X1. On a reachable state [deleteValue(value)] never throws and returns
    [true] exactly when a pair valued [value] is stored. The inverse table
    loses the entry for [value], the forward table loses the entry that
    maps to [value], every other entry of both tables stays where it is,
    and the size goes down by one. When no pair is valued [value] it
    returns [false] and changes nothing. *)
Theorem deleteValue_correct {K V : Type} `{EqDecision K, EqDecision V, CastKey K}
    (this : BiMap K V) (value : V) :
  reachable this →
  let this' := after (deleteValue value) this in
  (returns (deleteValue value) this true ↔ ∃ key, (key, value) ∈ entries this)
  ∧ (returns (deleteValue value) this false ↔ value ∉ values this)
  ∧ key2value this' = filter (λ e, e.2 ≠ value) (key2value this)
  ∧ value2key this' = filter (λ e, e.1 ≠ value) (value2key this)
  ∧ (returns (deleteValue value) this true → S (size this') = size this)
  ∧ (returns (deleteValue value) this false → this' = this).
Proof.
  intros Hmir%reachable_mirrored this'.
  destruct (mirrored_deleteValue this value Hmir) as [(Hm' & _) Hl]. fold this' in Hm', Hl.
  pose proof Hmir as (Hm & Hk & Hv).
  assert (value2key this' = filter (λ e, e.1 ≠ value) (value2key this)) as Hl'.
  { by rewrite Hm', Hl, Hm, filter_swap. }
  assert (size this' = length (filter (λ e : K * V, e.2 ≠ value) (key2value this)))
    as Hsize by (unfold size, JSMap.size; by rewrite Hl).
  unfold returns, values, JSMap.keys, entries, JSMap.entries.
  subst this'. unfold after in *. rewrite deleteValue_eq in *.
  destruct (JSMap.get (value2key this) value) as [k|] eqn:Hget; simpl in *.
  - apply mirrored_get_inverse in Hget; [|done].
    split; [split; [by exists k|done]|]. split.
    { split; [done|]. intros Hnot. exfalso. apply Hnot. rewrite Hm, swap_fst.
      by apply (list_elem_of_fmap_2 snd) in Hget. }
    do 2 (split; [done|]). split; [|done]. intros _. rewrite Hsize.
    apply length_filter_snd_present; [done|].
    by apply (list_elem_of_fmap_2 snd) in Hget.
  - apply get_None in Hget. split.
    { split; [done|]. intros [k Hin]. exfalso. apply Hget. rewrite Hm, swap_fst.
      by apply (list_elem_of_fmap_2 snd) in Hin. }
    split; [done|]. do 2 (split; [done|]). split; done.
Qed.

Lemma deleteValue_correct_witness :
  reachable bimap_one_two
  ∧ key2value (after (deleteValue 2%Z) bimap_one_two)
    = filter (λ e, e.2 ≠ 2%Z) (key2value bimap_one_two).
Proof.
  split; [exact reachable_one_two|].
  exact (proj1 (proj2 (proj2 (deleteValue_correct bimap_one_two 2%Z
                                reachable_one_two)))).
Defined.

(** X2. On a reachable state that stores the pair [(key, value)],
    [deleteKey(key)] and [deleteValue(value)] are the same call: both
    return [true] and leave the same state, one pair smaller. *)
Theorem deleteKey_deleteValue_agree {K V : Type}
    `{EqDecision K, EqDecision V, CastKey K}
    (this : BiMap K V) (key : K) (value : V) :
  reachable this → (key, value) ∈ entries this →
  deleteKey key this = deleteValue value this
  ∧ returns (deleteKey key) this true
  ∧ S (size (after (deleteKey key) this)) = size this.
Proof.
  intros Hmir%reachable_mirrored Hin. unfold returns, after, size, JSMap.size.
  rewrite deleteKey_eq, deleteValue_eq.
  rewrite (proj2 (mirrored_get_forward this key value Hmir) Hin).
  rewrite (proj2 (mirrored_get_inverse this key value Hmir) Hin).
  split; [done|]. split; [done|]. simpl.
  apply length_filter_fst_present; [apply Hmir|].
  by apply (list_elem_of_fmap_2 fst) in Hin.
Qed.

Lemma deleteKey_deleteValue_agree_witness :
  reachable bimap_a1_b2 ∧ ("b", 2%Z) ∈ entries bimap_a1_b2
  ∧ deleteKey "b" bimap_a1_b2 = deleteValue 2%Z bimap_a1_b2.
Proof.
  split; [exact reachable_a1_b2|]. split; [exact elem_a1_b2_b|].
  exact (proj1 (deleteKey_deleteValue_agree bimap_a1_b2 "b" 2%Z
                  reachable_a1_b2 elem_a1_b2_b)).
Defined.

(** ** Batch deletion *)

Section batch_deletion.
Context {K V : Type} `{EqDecision K, EqDecision V}.
Implicit Types (this : BiMap K V).

Lemma filter_all {A} (P : A → Prop) `{!∀ x, Decision (P x)} (l : list A) :
  (∀ x, x ∈ l → P x) → filter P l = l.
Proof.
  induction l as [|x l IH]; intros HP; [done|].
  rewrite filter_cons_True by apply HP, list_elem_of_here.
  rewrite IH; [done|]. intros y Hy. by apply HP, list_elem_of_further.
Qed.

(** The loop of [deleteKeys] on a mirrored state: it returns, the entries
    whose key is listed are gone, and the counter has grown by the number
    of entries removed, which is at most the number of keys listed. *)
Lemma deleteKeys_from_spec (ks : list K) num this :
  mirrored this →
  ∃ num' this',
    deleteKeys_from ks num this = (this', Return num')
    ∧ mirrored this'
    ∧ key2value this' = filter (λ e, e.1 ∉ ks) (key2value this)
    ∧ num' + length (key2value this') = num + length (key2value this)
    ∧ num' ≤ num + length ks.
Proof.
  revert num this. induction ks as [|k ks IH]; intros num this Hmir.
  - exists num, this. split; [done|]. split; [done|]. split; [|simpl; lia].
    symmetry. apply filter_all. intros x _. apply not_elem_of_nil.
  - simpl. rewrite bind_eq.
    destruct (mirrored_deleteKey this k Hmir) as [Hmir1 Hl1].
    pose proof Hmir as (_ & Hnd & _).
    unfold after in Hmir1, Hl1. rewrite deleteKey_eq in *.
    destruct (JSMap.get (key2value this) k) as [v|] eqn:Hget; simpl in *.
    + destruct (IH (S num) _ Hmir1) as (num' & this' & Hrun & Hmir' & Hl' & Hn & Hle).
      exists num', this'. split; [done|]. split; [done|]. simpl in *.
      rewrite Hl' in *. unfold JSMap.delete in *. rewrite list_filter_filter in *.
      split; [|split].
      * apply list_filter_iff. intros x. rewrite not_elem_of_cons. tauto.
      * apply get_Some_elem in Hget.
        pose proof (length_filter_fst_present (key2value this) k Hnd) as Hlen.
        rewrite <- Hlen; [lia|]. by apply (list_elem_of_fmap_2 fst) in Hget.
      * lia.
    + destruct (IH num _ Hmir) as (num' & this' & Hrun & Hmir' & Hl' & Hn & Hle).
      exists num', this'. split; [done|]. split; [done|].
      split; [|split; [done|lia]].
      rewrite Hl'. apply filter_agree. intros x Hx. rewrite not_elem_of_cons.
      split; [|tauto]. intros Hks. split; [|done]. intros Heq.
      apply get_None in Hget. apply Hget. rewrite <- Heq.
      by apply (list_elem_of_fmap_2 fst) in Hx.
Qed.

Lemma deleteValues_from_spec (vs : list V) num this :
  mirrored this →
  ∃ num' this',
    deleteValues_from vs num this = (this', Return num')
    ∧ mirrored this'
    ∧ key2value this' = filter (λ e, e.2 ∉ vs) (key2value this)
    ∧ num' + length (key2value this') = num + length (key2value this)
    ∧ num' ≤ num + length vs.
Proof.
  revert num this. induction vs as [|v vs IH]; intros num this Hmir.
  - exists num, this. split; [done|]. split; [done|]. split; [|simpl; lia].
    symmetry. apply filter_all. intros x _. apply not_elem_of_nil.
  - simpl. rewrite bind_eq.
    destruct (mirrored_deleteValue this v Hmir) as [Hmir1 Hl1].
    pose proof Hmir as (Hm & _ & Hnd).
    unfold after in Hmir1, Hl1. rewrite deleteValue_eq in *.
    destruct (JSMap.get (value2key this) v) as [k|] eqn:Hget; simpl in *.
    + destruct (IH (S num) _ Hmir1) as (num' & this' & Hrun & Hmir' & Hl' & Hn & Hle).
      exists num', this'. split; [done|]. split; [done|]. simpl in *.
      rewrite Hl1 in *. rewrite Hl' in *. rewrite list_filter_filter in *.
      split; [|split].
      * apply list_filter_iff. intros x. rewrite not_elem_of_cons. tauto.
      * apply mirrored_get_inverse in Hget; [|done].
        pose proof (length_filter_snd_present (key2value this) v Hnd) as Hlen.
        rewrite <- Hlen; [lia|]. by apply (list_elem_of_fmap_2 snd) in Hget.
      * lia.
    + destruct (IH num _ Hmir) as (num' & this' & Hrun & Hmir' & Hl' & Hn & Hle).
      exists num', this'. split; [done|]. split; [done|].
      split; [|split; [done|lia]].
      rewrite Hl'. apply filter_agree. intros x Hx. rewrite not_elem_of_cons.
      split; [|tauto]. intros Hvs. split; [|done]. intros Heq.
      apply get_None in Hget. apply Hget. rewrite Hm, swap_fst, <- Heq.
      by apply (list_elem_of_fmap_2 snd) in Hx.
Qed.

(** Two mirrored states with the same forward table are the same state. *)
Lemma mirrored_eq this1 this2 :
  mirrored this1 → mirrored this2 → key2value this1 = key2value this2 →
  this1 = this2.
Proof.
  intros (Hm1 & _) (Hm2 & _) Heq. destruct this1, this2. simpl in *. congruence.
Qed.
End batch_deletion.

Lemma length_filter_split {A} (P Q : A → Prop)
    `{!∀ x, Decision (P x), !∀ x, Decision (Q x)} (l : list A) :
  (∀ x, Q x ↔ ¬ P x) →
  length (filter P l) + length (filter Q l) = length l.
Proof.
  intros HPQ. induction l as [|x l IH]; [done|].
  rewrite !filter_cons. specialize (HPQ x).
  destruct (decide (P x)), (decide (Q x)); simpl; try lia; tauto.
Qed.

Lemma filter_none {A} (P : A → Prop) `{!∀ x, Decision (P x)} (l : list A) :
  (∀ x, x ∈ l → ¬ P x) → filter P l = [].
Proof.
  induction l as [|x l IH]; intros HP; [done|].
  rewrite filter_cons_False by apply HP, list_elem_of_here.
  apply IH. intros y Hy. by apply HP, list_elem_of_further.
Qed.

(** X3. On a reachable state [deleteKeys(keys)] never throws. It removes
    from both tables the pairs whose key is listed and leaves the others
    where they are. The number it returns is the number of pairs removed:
    the size goes down by it, keys listed twice or not stored add nothing,
    and it is at most the length of the array. *)
Theorem deleteKeys_count {K V : Type} `{EqDecision K, EqDecision V, CastKey K}
    (this : BiMap K V) (ks : list K) :
  reachable this →
  ∃ num,
    returns (deleteKeys ks) this num
    ∧ key2value (after (deleteKeys ks) this)
      = filter (λ e, e.1 ∉ ks) (key2value this)
    ∧ value2key (after (deleteKeys ks) this)
      = filter (λ e, e.2 ∉ ks) (value2key this)
    ∧ num + size (after (deleteKeys ks) this) = size this
    ∧ num = length (filter (λ e, e.1 ∈ ks) (entries this))
    ∧ num ≤ length ks.
Proof.
  intros Hmir%reachable_mirrored.
  destruct (deleteKeys_from_spec ks 0 this Hmir)
    as (num & this' & Hrun & (Hm' & _) & Hl & Hn & Hle).
  exists num. unfold returns, after, deleteKeys, size, JSMap.size, entries, JSMap.entries.
  rewrite Hrun. simpl. split; [done|]. split; [done|].
  split; [by rewrite Hm', Hl, (proj1 Hmir), filter_swap|].
  split; [done|]. split; [|done].
  pose proof (length_filter_split (λ e : K * V, e.1 ∈ ks) (λ e, e.1 ∉ ks)
                (key2value this)) as Hsplit.
  rewrite Hl in Hn. rewrite <- Hsplit in Hn by done. simpl in Hn. lia.
Qed.

Lemma deleteKeys_count_witness :
  reachable bimap_one_two
  ∧ ∃ num, returns (deleteKeys ["one"; "three"; "one"]) bimap_one_two num
           ∧ num + size (after (deleteKeys ["one"; "three"; "one"]) bimap_one_two)
             = size bimap_one_two.
Proof.
  split; [exact reachable_one_two|].
  destruct (deleteKeys_count bimap_one_two ["one"; "three"; "one"] reachable_one_two)
    as (num & Hret & _ & _ & Hsize & _).
  exists num. split; [exact Hret | exact Hsize].
Defined.

(** X4. On a reachable state [deleteValues(values)] never throws. It
    removes from both tables the pairs whose value is listed and leaves the
    others where they are. The number it returns is the number of pairs
    removed: the size goes down by it, and it is at most the length of the
    array. *)
Theorem deleteValues_count {K V : Type} `{EqDecision K, EqDecision V, CastKey K}
    (this : BiMap K V) (vs : list V) :
  reachable this →
  ∃ num,
    returns (deleteValues vs) this num
    ∧ key2value (after (deleteValues vs) this)
      = filter (λ e, e.2 ∉ vs) (key2value this)
    ∧ value2key (after (deleteValues vs) this)
      = filter (λ e, e.1 ∉ vs) (value2key this)
    ∧ num + size (after (deleteValues vs) this) = size this
    ∧ num = length (filter (λ e, e.2 ∈ vs) (entries this))
    ∧ num ≤ length vs.
Proof.
  intros Hmir%reachable_mirrored.
  destruct (deleteValues_from_spec vs 0 this Hmir)
    as (num & this' & Hrun & (Hm' & _) & Hl & Hn & Hle).
  exists num. unfold returns, after, deleteValues, size, JSMap.size, entries, JSMap.entries.
  rewrite Hrun. simpl. split; [done|]. split; [done|].
  split; [by rewrite Hm', Hl, (proj1 Hmir), filter_swap|].
  split; [done|]. split; [|done].
  pose proof (length_filter_split (λ e : K * V, e.2 ∈ vs) (λ e, e.2 ∉ vs)
                (key2value this)) as Hsplit.
  rewrite Hl in Hn. rewrite <- Hsplit in Hn by done. simpl in Hn. lia.
Qed.

Lemma deleteValues_count_witness :
  reachable bimap_one_two
  ∧ ∃ num, returns (deleteValues [2%Z; 3%Z]) bimap_one_two num
           ∧ num + size (after (deleteValues [2%Z; 3%Z]) bimap_one_two)
             = size bimap_one_two.
Proof.
  split; [exact reachable_one_two|].
  destruct (deleteValues_count bimap_one_two [2%Z; 3%Z] reachable_one_two)
    as (num & Hret & _ & _ & Hsize & _).
  exists num. split; [exact Hret | exact Hsize].
Defined.

(** X5. On a reachable state, deleting all the keys that [keys()] produces
    empties the container, as [clear()] does, and the number returned is
    the size the container had; so does deleting all the values that
    [values()] produces. *)
Theorem delete_all_is_clear {K V : Type} `{EqDecision K, EqDecision V, CastKey K}
    (this : BiMap K V) :
  reachable this →
  deleteKeys (keys this) this = (after clear this, Return (size this))
  ∧ deleteValues (values this) this = (after clear this, Return (size this))
  ∧ after clear this = new
  ∧ size (after clear this) = 0.
Proof.
  intros Hmir%reachable_mirrored. unfold deleteKeys, deleteValues, keys, values,
    JSMap.keys, size, JSMap.size, after. rewrite clear_eq. simpl.
  split; [|split; [|done]].
  - destruct (deleteKeys_from_spec (key2value this).*1 0 this Hmir)
      as (num & this' & -> & Hmir' & Hl & Hn & _).
    assert (key2value this' = []) as Hnil.
    { rewrite Hl. apply filter_none. intros x Hx Hnot. apply Hnot.
      by apply list_elem_of_fmap_2. }
    rewrite Hnil in Hn. simpl in Hn. f_equal; [|f_equal; lia].
    by apply mirrored_eq; [|apply mirrored_new|].
  - destruct (deleteValues_from_spec (value2key this).*1 0 this Hmir)
      as (num & this' & -> & Hmir' & Hl & Hn & _).
    assert (key2value this' = []) as Hnil.
    { rewrite Hl. apply filter_none. intros x Hx Hnot. apply Hnot.
      rewrite (proj1 Hmir), swap_fst. by apply list_elem_of_fmap_2. }
    rewrite Hnil in Hn. simpl in Hn. f_equal; [|f_equal; lia].
    by apply mirrored_eq; [|apply mirrored_new|].
Qed.

Lemma delete_all_is_clear_witness :
  reachable bimap_one_two
  ∧ deleteKeys (keys bimap_one_two) bimap_one_two
    = (after clear bimap_one_two, Return (size bimap_one_two)).
Proof.
  split; [exact reachable_one_two|].
  exact (proj1 (delete_all_is_clear bimap_one_two reachable_one_two)).
Defined.

(** ** Assertions *)



(** ** The iterators and the size *)

(** X7. On a reachable state [keys()], [values()] and [entries()] walk the
    same pairs in the same order: [keys()] produces the keys of
    [entries()] and [values()], though it walks the inverse table, the
    values of [entries()]. No key and no value is produced twice, each of
    the three produces [size] elements, and [hasKey] and [hasValue] accept
    exactly what [keys()] and [values()] produce. *)
Theorem iterators_consistent {K V : Type} `{EqDecision K, EqDecision V, CastKey K}
    (this : BiMap K V) :
  reachable this →
  keys this = (entries this).*1
  ∧ values this = (entries this).*2
  ∧ NoDup (keys this) ∧ NoDup (values this) ∧ NoDup (entries this)
  ∧ length (keys this) = size this
  ∧ length (values this) = size this
  ∧ length (entries this) = size this
  ∧ (∀ key, returns (hasKey key) this true ↔ key ∈ keys this)
  ∧ (∀ value, returns (hasValue value) this true ↔ value ∈ values this).
Proof.
  intros (Hm & Hk & Hv)%reachable_mirrored.
  unfold keys, values, entries, size, JSMap.keys, JSMap.entries, JSMap.size, returns.
  assert ((value2key this).*1 = (key2value this).*2) as Hvalues
    by (by rewrite Hm, swap_fst).
  rewrite Hvalues. repeat split; try done.
  - by apply NoDup_fmap_1 in Hk.
  - by rewrite length_fmap.
  - by rewrite length_fmap.
  - intros [= Hhas]. by apply has_true.
  - intros Hin. simpl. f_equal. by apply has_true.
  - intros [= Hhas]. rewrite <- Hvalues. by apply has_true.
  - intros Hin. simpl. f_equal. apply has_true. by rewrite Hvalues.
Qed.

Lemma iterators_consistent_witness :
  reachable bimap_one_two ∧ values bimap_one_two = (entries bimap_one_two).*2.
Proof.
  split; [exact reachable_one_two|].
  exact (proj1 (proj2 (iterators_consistent bimap_one_two reachable_one_two))).
Defined.

(** ** Which states are reachable *)

(** X8. The reachable states are exactly the states in which the inverse
    table is the forward table with every entry swapped, in the same
    order, and no key and no value occurs twice: the methods keep this,
    and every such state is what [from] builds from the array of its
    entries. *)
Theorem reachable_iff_mirrored {K V : Type} `{EqDecision K, EqDecision V, CastKey K}
    (this : BiMap K V) :
  (reachable this ↔ mirrored this)
  ∧ (reachable this ↔ from (PairsArray (entries this)) = Return this).
Proof.
  assert (mirrored this → from (PairsArray (entries this)) = Return this) as Hfrom.
  { intros (Hm & Hk & Hv).
    destruct (proj2 (from_Return_iff (PairsArray (entries this)))) as [this' Hthis'];
      [done|].
    rewrite Hthis'. f_equal.
    destruct (from_Return_tables _ _ Hthis') as [Hk' Hv'].
    destruct this, this'. simpl in *. unfold entries, JSMap.entries in *.
    simpl in *. congruence. }
  assert (from (PairsArray (entries this)) = Return this → reachable this) as Hreach.
  { intros Hthis. apply from_Return in Hthis.
    pose proof (reach_addAll new (PairsArray (entries this)) reach_new) as Hr.
    unfold after in Hr. by rewrite Hthis in Hr. }
  split; split.
  - apply reachable_mirrored.
  - intros Hmir. by apply Hreach, Hfrom.
  - intros Hmir%reachable_mirrored. by apply Hfrom.
  - apply Hreach.
Qed.

(** ** Insertion and deletion together *)

Section snoc_facts.
Context {A B : Type} `{EqDecision A}.
Implicit Types (m : list (A * B)).

Lemma get_snoc_fresh m a b : a ∉ m.*1 → JSMap.get (m ++ [(a, b)]) a = Some b.
Proof.
  induction m as [|[a' b'] m IH]; csimpl; intros Ha.
  - by rewrite decide_True.
  - apply not_elem_of_cons in Ha as [Hne Ha].
    rewrite decide_False by congruence. by apply IH.
Qed.

Lemma delete_snoc_fresh m a b : a ∉ m.*1 → JSMap.delete (m ++ [(a, b)]) a = m.
Proof.
  intros Ha. unfold JSMap.delete.
  rewrite filter_app, filter_fst_fresh by done.
  rewrite filter_cons_False by (intros Hne; by apply Hne). by rewrite app_nil_r.
Qed.
End snoc_facts.

(** X9. In any state, when [add(key, value)] returns, the size has grown
    by one, both lookups find the new pair, and deleting it again, by
    [deleteKey(key)] or by [deleteValue(value)], returns [true] and gives
    back the state [add] found. *)
Theorem add_then_delete {K V : Type} `{EqDecision K, EqDecision V}
    (this : BiMap K V) (key : K) (value : V) :
  returns (add key value) this () →
  let this' := after (add key value) this in
  size this' = S (size this)
  ∧ returns (getValue key) this' (Some value)
  ∧ returns (getKey value) this' (Some key)
  ∧ deleteKey key this' = (this, Return true)
  ∧ deleteValue value this' = (this, Return true).
Proof.
  unfold returns, after. intros Hret. cbv zeta.
  destruct (add key value this) as [this' c] eqn:Hadd. cbn [fst snd] in *. subst c.
  pose proof Hadd as Hadd'. rewrite add_eq in Hadd'.
  destruct (JSMap.has (key2value this) key) eqn:Hk; [done|].
  destruct (JSMap.has (value2key this) value) eqn:Hv; [done|].
  apply has_false in Hk, Hv. clear Hadd'.
  apply add_returns in Hadd as [Hl Hl'].
  rewrite deleteKey_eq, deleteValue_eq, getValue_eq, getKey_eq.
  unfold size, JSMap.size. simpl.
  rewrite Hl, Hl', !get_snoc_fresh, !delete_snoc_fresh by done.
  rewrite length_app. simpl. destruct this.
  repeat split; try done. lia.
Qed.

Lemma add_then_delete_witness :
  returns (add "two" 2%Z) bimap_one ()
  ∧ deleteKey "two" (after (add "two" 2%Z) bimap_one) = (bimap_one, Return true).
Proof.
  assert (returns (add "two" 2%Z) bimap_one ()) as Hret by (vm_compute; reflexivity).
  split; [exact Hret|].
  exact (proj1 (proj2 (proj2 (proj2 (add_then_delete bimap_one "two" 2%Z Hret))))).
Defined.

(** ** The two policies together *)

Section upsert_facts.
Context {K V : Type} `{EqDecision K, EqDecision V}.
Implicit Types (this : BiMap K V) (l : list (K * V)).

(** Where [add] returns, [set] does what [add] does. *)
Lemma add_returns_set key value this this' :
  add key value this = (this', Return ()) → set key value this = (this', Return ()).
Proof.
  rewrite add_eq, set_eq. unfold after. rewrite deleteKey_eq. unfold JSMap.has.
  destruct (JSMap.get (key2value this) key) eqn:Hk; [done|]. simpl.
  rewrite deleteValue_eq.
  destruct (JSMap.get (value2key this) value) eqn:Hv; [done|]. done.
Qed.

Lemma for_each_set_cons key value l this :
  for_each (λ e, set e.1 e.2) ((key, value) :: l) this
  = for_each (λ e, set e.1 e.2) l (after (set key value) this).
Proof. rewrite for_each_cons. cbn [fst snd]. unfold after. by rewrite set_eq. Qed.

Lemma for_each_set_returns l this : (for_each (λ e, set e.1 e.2) l this).2 = Return ().
Proof.
  revert this. induction l as [|[k v] l IH]; intros this; [done|].
  rewrite for_each_set_cons. apply IH.
Qed.

Lemma for_each_set_mirrored l this :
  mirrored this → mirrored (after (for_each (λ e, set e.1 e.2) l) this).
Proof.
  revert this. induction l as [|[k v] l IH]; intros this Hmir; [done|].
  unfold after. rewrite for_each_set_cons. apply IH. by apply mirrored_set.
Qed.

(** A run of [set]s over pairs that repeat no key and no value: the stored
    pairs that collide with none of them stay, and the new pairs follow in
    their order. *)
Lemma for_each_set_spec l this :
  mirrored this → NoDup l.*1 → NoDup l.*2 →
  key2value (after (for_each (λ e, set e.1 e.2) l) this)
  = filter (λ e, (e.1 ∉ l.*1) ∧ (e.2 ∉ l.*2)) (key2value this) ++ l.
Proof.
  revert this. induction l as [|[k v] l IH]; intros this Hmir Hk Hv.
  - rewrite app_nil_r. symmetry. apply filter_all. intros x _.
    split; apply not_elem_of_nil.
  - csimpl in Hk. csimpl in Hv.
    apply NoDup_cons in Hk as [Hk Hk'], Hv as [Hv Hv'].
    unfold after. rewrite for_each_set_cons.
    destruct (mirrored_set this k v Hmir) as [Hmir1 Hl1].
    specialize (IH _ Hmir1 Hk' Hv'). unfold after at 1 in IH. rewrite IH, Hl1.
    rewrite filter_app, list_filter_filter, filter_cons_True by done.
    rewrite filter_nil, <- app_assoc. simpl. f_equal.
    apply list_filter_iff. intros x. csimpl. rewrite !not_elem_of_cons. tauto.
Qed.
End upsert_facts.

(** X10. Whenever [addAll(source)] returns, [setAll(source)] called in its
    place returns too and leaves the same state: the two policies differ
    only where a key or a value is already stored. *)
Theorem strict_success_is_upsert {K V : Type} `{EqDecision K, EqDecision V, CastKey K}
    (this this' : BiMap K V) (pairs : Pairs K V) :
  addAll pairs this = (this', Return ()) → setAll pairs this = (this', Return ()).
Proof.
  rewrite addAll_eq, setAll_eq. generalize (pairs_of pairs). intros l. revert this.
  induction l as [|[k v] l IH]; intros this; [done|].
  rewrite !for_each_cons. cbn [fst snd].
  destruct (add k v this) as [this1 [[]|e]] eqn:Hadd; [|done].
  rewrite (add_returns_set _ _ _ _ Hadd). apply IH.
Qed.

Lemma strict_success_is_upsert_witness :
  addAll (PairsArray [("two", 2%Z)]) bimap_one = (bimap_one_two, Return ())
  ∧ setAll (PairsArray [("two", 2%Z)]) bimap_one = (bimap_one_two, Return ()).
Proof.
  assert (addAll (PairsArray [("two", 2%Z)]) bimap_one = (bimap_one_two, Return ()))
    as Hadd by (vm_compute; reflexivity).
  split; [exact Hadd|].
  exact (strict_success_is_upsert bimap_one bimap_one_two _ Hadd).
Defined.

(** X11. On a reachable state, for a source that is not a container in the
    receiver's own state (so it is not the receiver itself, on which a
    non-empty [setAll] walks the table it keeps re-appending to and does
    not return) or for an empty receiver, [setAll(source)] never throws,
    and the last pair of the source is stored afterwards. When the source
    repeats no key and no value, the stored pairs that share no key and no
    value with it stay where they are and the pairs of the source follow
    in its order, so all of them are stored afterwards. *)
Theorem setAll_upsert {K V : Type} `{EqDecision K, EqDecision V, CastKey K}
    (this : BiMap K V) (pairs : Pairs K V) :
  reachable this →
  (pairs = PairsBiMap this → entries this = []) →
  returns (setAll pairs) this ()
  ∧ (∀ l e, pairs_of pairs = l ++ [e] → e ∈ entries (after (setAll pairs) this))
  ∧ (NoDup (pairs_of pairs).*1 → NoDup (pairs_of pairs).*2 →
       entries (after (setAll pairs) this)
       = filter (λ e, (e.1 ∉ (pairs_of pairs).*1) ∧ (e.2 ∉ (pairs_of pairs).*2))
           (entries this) ++ pairs_of pairs
       ∧ ∀ e, e ∈ pairs_of pairs → e ∈ entries (after (setAll pairs) this)).
Proof.
  intros Hmir%reachable_mirrored _.
  unfold returns, after, entries, JSMap.entries. rewrite setAll_eq.
  split; [apply for_each_set_returns|]. split.
  - intros l [k v] ->. rewrite for_each_app.
    pose proof (for_each_set_returns l this) as Hret.
    pose proof (for_each_set_mirrored l this Hmir) as Hmir'. unfold after in Hmir'.
    destruct (for_each (λ e, set e.1 e.2) l this) as [this1 c]. simpl in Hret, Hmir'.
    subst c. rewrite for_each_set_cons. simpl.
    destruct (mirrored_set this1 k v Hmir') as [_ ->].
    apply elem_of_app. right. apply list_elem_of_here.
  - intros Hk Hv. pose proof (for_each_set_spec _ this Hmir Hk Hv) as Hspec.
    unfold after in Hspec. rewrite Hspec. split; [done|].
    intros e He. apply elem_of_app. by right.
Qed.

Lemma setAll_upsert_witness :
  reachable bimap_one_two
  ∧ (PairsBiMap bimap_a1_b2 = PairsBiMap bimap_one_two → entries bimap_one_two = [])
  ∧ returns (setAll (PairsBiMap bimap_a1_b2)) bimap_one_two ().
Proof.
  assert (PairsBiMap bimap_a1_b2 = PairsBiMap bimap_one_two
          → entries bimap_one_two = []) as Hother by (intros Heq; discriminate Heq).
  split; [exact reachable_one_two|]. split; [exact Hother|].
  exact (proj1 (setAll_upsert bimap_one_two (PairsBiMap bimap_a1_b2)
                  reachable_one_two Hother)).
Defined.

(** X12. On a reachable state, after [set(key, value)] both lookups find
    the new pair, and the pairs the lookups find are the new one and the
    old ones that had neither [key] as key nor [value] as value: [getValue]
    answers [v] for [k] exactly when [(k, v)] is the new pair, or [k] is
    not [key], [v] is not [value] and [getValue] answered [v] for [k]
    before; likewise [getKey]. *)
Theorem set_then_lookup {K V : Type} `{EqDecision K, EqDecision V, CastKey K}
    (this : BiMap K V) (key : K) (value : V) :
  reachable this →
  let this' := after (set key value) this in
  returns (getValue key) this' (Some value)
  ∧ returns (getKey value) this' (Some key)
  ∧ returns (hasKey key) this' true
  ∧ returns (hasValue value) this' true
  ∧ (∀ k v, returns (getValue k) this' (Some v) ↔
       (k = key ∧ v = value)
       ∨ (k ≠ key ∧ v ≠ value ∧ returns (getValue k) this (Some v)))
  ∧ (∀ k v, returns (getKey v) this' (Some k) ↔
       (k = key ∧ v = value)
       ∨ (k ≠ key ∧ v ≠ value ∧ returns (getKey v) this (Some k))).
Proof.
  intros Hmir%reachable_mirrored this'.
  destruct (mirrored_set this key value Hmir) as [Hmir' Hl]. fold this' in Hmir', Hl.
  assert (∀ k v, (k, v) ∈ key2value this' ↔
            (k = key ∧ v = value)
            ∨ (k ≠ key ∧ v ≠ value ∧ (k, v) ∈ key2value this)) as Hin.
  { intros k v. rewrite Hl, elem_of_app, list_elem_of_filter, elem_of_cons, elem_of_nil.
    simpl. split.
    - intros [[[? ?] ?]|[[= -> ->]|[]]]; [by right|by left].
    - intros [[-> ->]|(? & ? & ?)]; [right; by left|by left]. }
  unfold returns. rewrite hasKey_eq, hasValue_eq. unfold JSMap.has.
  assert (JSMap.get (key2value this') key = Some value) as Hgk.
  { apply mirrored_get_forward; [done|]. apply Hin. by left. }
  assert (JSMap.get (value2key this') value = Some key) as Hgv.
  { apply mirrored_get_inverse; [done|]. apply Hin. by left. }
  simpl. rewrite Hgk, Hgv. do 4 (split; [done|]). split.
  - intros k v.
    assert (∀ o : option V,
              @Return (BiMapError K V) _ o = Return (Some v) ↔ o = Some v) as Hinj
      by (intros o; split; [by intros [= ->]|by intros ->]).
    rewrite !Hinj, (mirrored_get_forward this' k v Hmir'),
      (mirrored_get_forward this k v Hmir). apply Hin.
  - intros k v.
    assert (∀ o : option K,
              @Return (BiMapError K V) _ o = Return (Some k) ↔ o = Some k) as Hinj
      by (intros o; split; [by intros [= ->]|by intros ->]).
    rewrite !Hinj, (mirrored_get_inverse this' k v Hmir'),
      (mirrored_get_inverse this k v Hmir). apply Hin.
Qed.

Lemma set_then_lookup_witness :
  reachable bimap_a1_b2
  ∧ returns (getValue "a") (after (set "a" 2%Z) bimap_a1_b2) (Some 2%Z).
Proof.
  split; [exact reachable_a1_b2|].
  exact (proj1 (set_then_lookup bimap_a1_b2 "a" 2%Z reachable_a1_b2)).
Defined.

(** X13. On a reachable state, [set(key, value)] twice in a row leaves the
    state that [set(key, value)] once leaves. *)
Theorem set_idempotent {K V : Type} `{EqDecision K, EqDecision V, CastKey K}
    (this : BiMap K V) (key : K) (value : V) :
  reachable this →
  after (set key value) (after (set key value) this) = after (set key value) this.
Proof.
  intros Hmir%reachable_mirrored.
  destruct (mirrored_set this key value Hmir) as [Hmir1 Hl1].
  destruct (mirrored_set _ key value Hmir1) as [Hmir2 Hl2].
  apply mirrored_eq; [done..|].
  rewrite Hl2, Hl1 at 1. rewrite Hl1. f_equal.
  rewrite filter_app, list_filter_filter, filter_cons_False, filter_nil, app_nil_r
    by (simpl; intros [Hne _]; by apply Hne).
  apply list_filter_iff. intros x. tauto.
Qed.

Lemma set_idempotent_witness :
  reachable bimap_a1_b2
  ∧ after (set "a" 2%Z) (after (set "a" 2%Z) bimap_a1_b2)
    = after (set "a" 2%Z) bimap_a1_b2.
Proof.
  split; [exact reachable_a1_b2|].
  exact (set_idempotent bimap_a1_b2 "a" 2%Z reachable_a1_b2).
Defined.

(** ** No two containers share a table *)

Section owned_facts.
Context {K V : Type} `{EqDecision K, EqDecision V}.
Implicit Types (h s : heap K V) (r : ref).

Lemma owned_nil : owned ([] : heap K V).
Proof. split; intros *; by rewrite ?lookup_nil. Qed.

(** New cells, one container among them with its two tables among them. *)
Lemma owned_extend h s i0 a b ma mb :
  owned h →
  (∀ i kv vk, s !! i = Some (ObjBiMap kv vk) →
     i = i0 ∧ kv = length h + a ∧ vk = length h + b) →
  s !! a = Some (ObjForward ma) → s !! b = Some (ObjInverse mb) →
  owned (h ++ s).
Proof.
  intros [Hhas Hapart] Hs Ha Hb.
  assert (∀ r kv vk, (h ++ s) !! r = Some (ObjBiMap kv vk) →
            (h !! r = Some (ObjBiMap kv vk) ∧ kv < length h ∧ vk < length h)
            ∨ (r = length h + i0 ∧ kv = length h + a ∧ vk = length h + b)) as Hcases.
  { intros r kv vk Hr. destruct (decide (r < length h)) as [Hlt|Hge].
    - rewrite lookup_app_l in Hr by done. left. split; [done|].
      destruct (Hhas _ _ _ Hr) as [[m Hm] [m' Hm']].
      apply lookup_lt_Some in Hm, Hm'. done.
    - rewrite lookup_app_r in Hr by lia.
      destruct (Hs _ _ _ Hr) as (Hi & -> & ->). right. split; [lia|done]. }
  split.
  - intros r kv vk [(Hr & Hkv & Hvk)|(-> & -> & ->)]%Hcases.
    + destruct (Hhas _ _ _ Hr) as [[m Hm] [m' Hm']].
      split; [exists m|exists m']; by rewrite lookup_app_l.
    + split; [exists ma|exists mb]; by rewrite lookup_app_plus.
  - intros r1 r2 kv1 vk1 kv2 vk2 Hne
      [(Hr1 & Hkv1 & Hvk1)|(-> & -> & ->)]%Hcases
      [(Hr2 & Hkv2 & Hvk2)|(-> & -> & ->)]%Hcases.
    + by apply (Hapart r1 r2).
    + lia.
    + lia.
    + done.
Qed.

(** A table rewritten in place. *)
Lemma owned_insert_forward h i m0 m :
  owned h → h !! i = Some (ObjForward m0) → owned (<[i := ObjForward m]> h).
Proof.
  intros [Hhas Hapart] Hi.
  assert (∀ r kv vk, <[i := ObjForward m]> h !! r = Some (ObjBiMap kv vk) →
            h !! r = Some (ObjBiMap kv vk)) as Hsame.
  { intros r kv vk [(_ & [=] & _)|[_ ?]]%list_lookup_insert_Some. done. }
  split.
  - intros r kv vk Hr%Hsame. destruct (Hhas _ _ _ Hr) as [[m1 Hm1] [m2 Hm2]].
    assert (i ≠ vk) by congruence. rewrite (list_lookup_insert_ne _ i vk) by done.
    split; [|by exists m2].
    destruct (decide (i = kv)) as [->|Hne].
    + exists m. apply list_lookup_insert_eq. by apply lookup_lt_Some in Hm1.
    + exists m1. by rewrite list_lookup_insert_ne.
  - intros r1 r2 kv1 vk1 kv2 vk2 Hne Hr1%Hsame Hr2%Hsame. by apply (Hapart r1 r2).
Qed.

Lemma owned_insert_inverse h i m0 m :
  owned h → h !! i = Some (ObjInverse m0) → owned (<[i := ObjInverse m]> h).
Proof.
  intros [Hhas Hapart] Hi.
  assert (∀ r kv vk, <[i := ObjInverse m]> h !! r = Some (ObjBiMap kv vk) →
            h !! r = Some (ObjBiMap kv vk)) as Hsame.
  { intros r kv vk [(_ & [=] & _)|[_ ?]]%list_lookup_insert_Some. done. }
  split.
  - intros r kv vk Hr%Hsame. destruct (Hhas _ _ _ Hr) as [[m1 Hm1] [m2 Hm2]].
    assert (i ≠ kv) by congruence. rewrite (list_lookup_insert_ne _ i kv) by done.
    split; [by exists m1|].
    destruct (decide (i = vk)) as [->|Hne].
    + exists m. apply list_lookup_insert_eq. by apply lookup_lt_Some in Hm2.
    + exists m2. by rewrite list_lookup_insert_ne.
  - intros r1 r2 kv1 vk1 kv2 vk2 Hne Hr1%Hsame Hr2%Hsame. by apply (Hapart r1 r2).
Qed.

Lemma new_obj_eq h :
  new_obj h
  = (h ++ [ObjForward []; ObjInverse []; ObjBiMap (length h) (length h + 1)],
     length h + 2).
Proof.
  unfold new_obj, alloc. simpl. rewrite <- !app_assoc, !length_app. simpl.
  reflexivity.
Qed.

(** Making, cloning and calling keep the tables owned. *)
Lemma heap_reachable_owned h : heap_reachable h → owned h.
Proof.
  induction 1 as [|h _ IH|h r h' r' _ IH Hclone|A m h r h' c _ IH Hcall].
  - apply owned_nil.
  - rewrite new_obj_eq. simpl.
    apply (owned_extend h _ 2 0 1 [] []); [done| |done|done].
    intros [|[|[|[|]]]] kv vk; simpl; try done.
    intros [= <- <-]. split; [done|lia].
  - destruct (load h r) as [this|] eqn:Hload;
      [|unfold clone_obj in Hclone; by rewrite Hload in Hclone].
    rewrite (clone_obj_eq h r this Hload) in Hclone. injection Hclone as <- <-.
    apply (owned_extend h _ 2 3 4 (JSMap.from_entries (key2value this))
             (JSMap.from_entries (value2key this))); [done| |done|done].
    intros [|[|[|[|[|[|]]]]]] kv vk; simpl; try done.
    by intros [= <- <-].
  - destruct (load h r) as [this|] eqn:Hload;
      [|unfold call in Hcall; by rewrite Hload in Hcall].
    apply load_Some in Hload as (kv & vk & Hr & Hkv & Hvk).
    rewrite (call_Some m h r this kv vk) in Hcall by done. injection Hcall as <- <-.
    eapply owned_insert_inverse.
    + by eapply owned_insert_forward.
    + rewrite list_lookup_insert_ne by congruence. done.
Qed.
End owned_facts.

(** X14. In a store that a program reaches by making containers with
    [new BiMap()], cloning them and calling their methods, every container
    has its own two tables: each can be read, and no two of them share a
    table. So under any calls of any methods on two different containers,
    in any order, every call goes through and each of the two ends in the
    state that the calls made on it alone lead to. *)
Theorem tables_never_shared {K V : Type} `{EqDecision K, EqDecision V}
    (h : heap K V) :
  heap_reachable h →
  (∀ r kv vk, h !! r = Some (ObjBiMap kv vk) → is_Some (load h r))
  ∧ (∀ r1 r2, r1 ≠ r2 → is_Some (load h r1) → is_Some (load h r2) → apart h r1 r2)
  ∧ (∀ r1 r2 this1 this2 ms,
       r1 ≠ r2 → load h r1 = Some this1 → load h r2 = Some this2 →
       Forall (λ c, c.1 = r1 ∨ c.1 = r2) ms →
       ∃ h', calls ms h = Some h'
             ∧ load h' r1 = Some (run (calls_on r1 ms) this1)
             ∧ load h' r2 = Some (run (calls_on r2 ms) this2)).
Proof.
  intros [Hhas Hapart]%heap_reachable_owned.
  assert (∀ r1 r2, r1 ≠ r2 → is_Some (load h r1) → is_Some (load h r2) →
            apart h r1 r2) as Hap.
  { intros r1 r2 Hne [this1 (kv1 & vk1 & Hr1 & _)%load_Some]
                     [this2 (kv2 & vk2 & Hr2 & _)%load_Some].
    exists kv1, vk1, kv2, vk2. rewrite !fields_Some.
    split; [done|]. split; [done|]. by apply (Hapart r1 r2). }
  split; [|split; [done|]].
  - intros r kv vk Hr. destruct (Hhas _ _ _ Hr) as [[m Hm] [m' Hm']].
    exists (mkBiMap m m'). apply load_Some. by exists kv, vk.
  - intros r1 r2 this1 this2 ms Hne H1 H2 Hms.
    apply calls_apart; [done|done| |done]. by apply Hap.
Qed.

Lemma heap_reachable_one_two : heap_reachable heap_one_two.
Proof.
  apply (heap_call (addAll source_record) (new_obj []).1 2 heap_one_two (Return ())).
  - apply heap_new, heap_empty.
  - by vm_compute.
Qed.

Lemma heap_reachable_cloned : heap_reachable heap_cloned.
Proof.
  apply (heap_clone heap_one_two 2 heap_cloned 5); [apply heap_reachable_one_two|].
  by vm_compute.
Qed.

Lemma tables_never_shared_witness :
  heap_reachable heap_cloned ∧ apart heap_cloned 2 5.
Proof.
  split; [exact heap_reachable_cloned|].
  refine (proj1 (proj2 (tables_never_shared heap_cloned heap_reachable_cloned))
            2 5 _ _ _).
  - discriminate.
  - exists bimap_one_two. reflexivity.
  - exists bimap_one_two. reflexivity.
Defined.

Section new_facts.
Context {K V : Type} `{EqDecision K, EqDecision V}.
Implicit Types (h : heap K V) (r : ref) (this : BiMap K V).

Lemma new_obj_spec h :
  h !! (new_obj h).2 = None
  ∧ load (new_obj h).1 (new_obj h).2 = Some new
  ∧ ∀ r this, load h r = Some this →
      load (new_obj h).1 r = Some this ∧ apart (new_obj h).1 r (new_obj h).2.
Proof.
  rewrite new_obj_eq. simpl. split; [apply lookup_ge_None; lia|]. split.
  - apply load_Some. exists (length h), (length h + 1). split; [|split].
    + by rewrite lookup_app_plus.
    + by apply list_lookup_middle.
    + by rewrite lookup_app_plus.
  - intros r this (kv & vk & Hr & Hkv & Hvk)%load_Some.
    pose proof (lookup_lt_Some _ _ _ Hr). pose proof (lookup_lt_Some _ _ _ Hkv).
    pose proof (lookup_lt_Some _ _ _ Hvk). split.
    + apply load_Some. exists kv, vk. by rewrite !lookup_app_l by done.
    + exists kv, vk, (length h), (length h + 1). rewrite !fields_Some.
      rewrite lookup_app_l, lookup_app_plus by done.
      split; [done|]. split; [reflexivity|]. split; lia.
Qed.
End new_facts.

(** X15. [new BiMap()] makes an object that was not in the store, in the
    empty state, and leaves every container of the store as it was; the
    new container shares no table with any of them. *)
Theorem new_is_fresh {K V : Type} `{EqDecision K, EqDecision V} (h : heap K V) :
  h !! (new_obj h).2 = None
  ∧ load (new_obj h).1 (new_obj h).2 = Some new
  ∧ (∀ key value,
       returns (hasKey key) (new : BiMap K V) false
       ∧ returns (hasValue value) (new : BiMap K V) false
       ∧ size (new : BiMap K V) = 0)
  ∧ ∀ r this, load h r = Some this →
      load (new_obj h).1 r = Some this ∧ apart (new_obj h).1 r (new_obj h).2.
Proof.
  destruct (new_obj_spec h) as (Hfresh & Hload & Hframe).
  split; [done|]. split; [done|]. split; [done|]. apply Hframe.
Qed.

(** ** Copies *)

(** X16. On a reachable state, [from] given the container itself, or a
    [Map] holding its entries, or the array of its entries, returns a
    container in the same state, which is also the state of the container
    [clone()] returns. *)
Theorem from_copies {K V : Type} `{EqDecision K, EqDecision V, CastKey K}
    (this : BiMap K V) :
  reachable this →
  from (PairsBiMap this) = Return this
  ∧ from (PairsMap (entries this)) = Return this
  ∧ from (PairsArray (entries this)) = Return this
  ∧ from (PairsBiMap this) = Return (clone this).
Proof.
  intros Hmir%reachable_mirrored.
  assert (∀ pairs, pairs_of pairs = key2value this → from pairs = Return this)
    as Hfrom.
  { intros pairs Hpairs. pose proof Hmir as (Hm & Hk & Hv).
    destruct (proj2 (from_Return_iff pairs)) as [this' Hthis'];
      [by rewrite Hpairs|].
    rewrite Hthis'. f_equal. symmetry.
    apply mirrored_eq; [done|by eapply from_Return_mirrored|].
    destruct (from_Return_tables _ _ Hthis') as [-> _]. done. }
  rewrite clone_mirrored by done. repeat split; by apply Hfrom.
Qed.

Lemma from_copies_witness :
  reachable bimap_one_two ∧ from (PairsBiMap bimap_one_two) = Return bimap_one_two.
Proof.
  split; [exact reachable_one_two|].
  exact (proj1 (from_copies bimap_one_two reachable_one_two)).
Defined.

